(** * cpp-gray: the [gray_code<Unsigned>] class template

    A shallow embedding of [include/cpp-gray/gray.inl] (and of the
    [to_gray] / [from_gray] functions of the article "Converting To and
    From Gray Code"), followed by the properties of the conversions, of
    the parity functions, of the comparison and bitwise operators and of
    the increment and decrement operators.

    A value of the template parameter [Unsigned] is a [Z] in
    [[0, 2^W)], where [W] is [std::numeric_limits<Unsigned>::digits];
    every store into an [Unsigned] object is a reduction modulo [2^W].
    The bit operators of C++ are those of [Z]: on negative numbers
    [Z.land], [Z.lxor] and [Z.lnot] are the two's complement ones. *)

From Stdlib Require Import ZArith Lia Bool Btauto.

Local Open Scope Z_scope.

(** ** Built-in integers *)

(** Width of [int] and [unsigned int]. *)
Definition int_digits : Z := 32.

(** Conversion to a [W]-bit unsigned type. *)
Definition wrap (W x : Z) : Z := x mod 2 ^ W.

(** Conversion to [int] (two's complement). *)
Definition to_int (x : Z) : Z :=
  (x + 2 ^ (int_digits - 1)) mod 2 ^ int_digits - 2 ^ (int_digits - 1).

(** The values of a [W]-bit unsigned type. *)
Definition in_range (W x : Z) : Prop := 0 <= x < 2 ^ W.

(** [static_cast<bool>] of an integer. *)
Definition cast_bool (x : Z) : bool := negb (x =? 0).

(** [a << n] on [int] operands, [a] not negative (C++14, [expr.shift]):
    defined when [n] is below the width of [int] and [a * 2^n] fits
    [unsigned int]; the value is then converted to [int]. *)
Definition int_shl (a n : Z) : option Z :=
  if (0 <=? a) && (0 <=? n) && (n <? int_digits) && (a * 2 ^ n <? 2 ^ int_digits)
  then Some (to_int (a * 2 ^ n))
  else None.

(** [a << n] where [a] has the [W]-bit unsigned type: an operand narrower
    than [int] is promoted to [int], a wider one is shifted modulo [2^W];
    the shift count must be below the width of the promoted type. *)
Definition shl (W a n : Z) : option Z :=
  if W <? int_digits then int_shl a n
  else if (0 <=? n) && (n <? W) then Some (wrap W (a * 2 ^ n))
  else None.

(** [a >> n] where [a] has the [W]-bit unsigned type. *)
Definition shr (W a n : Z) : option Z :=
  if (0 <=? n) && (n <? Z.max W int_digits) then Some (Z.shiftr a n) else None.

(** Unary minus on a [W]-bit unsigned operand: computed on [int] after a
    promotion, modulo [2^W] otherwise. *)
Definition neg (W a : Z) : Z :=
  if W <? int_digits then - a else wrap W (- a).

(** Number of bits set. *)
Fixpoint Pos_popcount (p : positive) : nat :=
  match p with
  | xH => 1
  | xO q => Pos_popcount q
  | xI q => S (Pos_popcount q)
  end.

Definition popcount (x : Z) : nat :=
  match x with
  | Z.pos p => Pos_popcount p
  | _ => O
  end.

(** The compiler intrinsic [int __builtin_parity(unsigned int x)]: "the
    parity of x, i.e. the number of 1-bits in x modulo 2".  Its parameter
    has type [unsigned int]: the argument is converted to it. *)
Definition builtin_parity (x : Z) : Z :=
  Z.of_nat (popcount (wrap int_digits x) mod 2).

(** The two branches of the [#if defined(__GNUC__) || defined(__clang__)]
    of [is_odd]. *)
Inductive toolchain : Set :=
| gnuc_or_clang
| other_compiler.

(** ** The loop shared by [operator value_type] and [is_odd]

    [for (mask = start ; mask ; mask >>= 1) res ^= res >> mask;]
    The recursion is on the binary digits of [mask]: [mask >> 1] drops
    the last one, and the loop ends when none is left. *)
Fixpoint xor_fold (W : Z) (mask : positive) (res : Z) : Z :=
  let res' := wrap W (Z.lxor res (Z.shiftr res (Z.pos mask))) in
  match mask with
  | xH => res'
  | xO m => xor_fold W m res'
  | xI m => xor_fold W m res'
  end.

Definition xor_fold_from (W mask res : Z) : Z :=
  match mask with
  | Z.pos p => xor_fold W p res
  | _ => res
  end.

(** ** The article's conversion functions *)

(** [to_gray(Unsigned value)]: [return value ^ (value >> 1);] *)
Definition to_gray (W v : Z) : Z := wrap W (Z.lxor v (Z.shiftr v 1)).

(** [from_gray(Unsigned value)]:
    [for (Unsigned mask = digits / 2 ; mask ; mask >>= 1)
       value ^= value >> mask;
     return value;] *)
Definition from_gray (W v : Z) : Z := xor_fold_from W (W / 2) v.

(** ** [gray_code<Unsigned>] *)

Record gray_code : Set := mk_gray_code { value : Z }.

Section GrayCode.

(** [std::numeric_limits<value_type>::digits] *)
Variable W : Z.

(** *** Construction and assignment *)

(** [gray_code(): value(0)] *)
Definition gray_code_default : gray_code := mk_gray_code 0.

(** [gray_code(value_type value): value( (value >> 1) ^ value )] *)
Definition gray_code_of_value (v : Z) : gray_code :=
  mk_gray_code (wrap W (Z.lxor (Z.shiftr v 1) v)).

(** [gray_code(bool value): value(value)] *)
Definition gray_code_of_bool (b : bool) : gray_code :=
  mk_gray_code (Z.b2z b).

(** [operator=(value_type other)]: [value = (other >> 1) ^ other;] *)
Definition assign_value (_ : gray_code) (other : Z) : gray_code :=
  mk_gray_code (wrap W (Z.lxor (Z.shiftr other 1) other)).

(** [operator=(bool other)]: [value = other;] *)
Definition assign_bool (_ : gray_code) (other : bool) : gray_code :=
  mk_gray_code (Z.b2z other).

(** [gray(Unsigned value)]: [return gray_code<Unsigned>(value);] *)
Definition gray (v : Z) : gray_code := gray_code_of_value v.

(** *** Conversion *)

(** [operator value_type()]:
    [value_type res = value;
     for (value_type mask = digits / 2 ; mask ; mask >>= 1) res ^= res >> mask;
     return res;] *)
Definition operator_value_type (g : gray_code) : Z :=
  xor_fold_from W (W / 2) (value g).

(** [operator bool()]: [return static_cast<bool>(value);] *)
Definition operator_bool (g : gray_code) : bool := cast_bool (value g).

(** *** Parity *)

(** [is_odd(gray_code<Unsigned> code)]: with GCC or Clang,
    [return static_cast<bool>(__builtin_parity(code.value));] otherwise
    [for (std::size_t i = digits / 2 ; i ; i >>= 1)
       code.value ^= (code.value >> i);
     return static_cast<bool>(code.value & 1);] *)
Definition is_odd (tc : toolchain) (code : gray_code) : bool :=
  match tc with
  | gnuc_or_clang => cast_bool (builtin_parity (value code))
  | other_compiler =>
      cast_bool (Z.land (xor_fold_from W (W / 2) (value code)) 1)
  end.

(** [is_even]: [return not is_odd(code);] *)
Definition is_even (tc : toolchain) (code : gray_code) : bool :=
  negb (is_odd tc code).

(** *** Increment and decrement *)

(** [constexpr value_type msb = 1 << (digits - 1);] the literal [1] is an
    [int], and so is the shift; the result is then converted to
    [value_type].  [None]: the initialiser is not a constant expression,
    the member function is ill-formed. *)
Definition msb : option Z := option_map (wrap W) (int_shl 1 (W - 1)).

(** [auto y = value & -value; value ^= (y << 1);] *)
Definition flip_left_of_lowest (v : Z) : option gray_code :=
  let y := Z.land v (neg W v) in
  match shl W y 1 with
  | Some y1 => Some (mk_gray_code (wrap W (Z.lxor v y1)))
  | None => None
  end.

(** The statements of [operator++] that follow the declaration of
    [msb], for a value [m] of that constant:
    [if (is_odd( *this)) {
       if (value == msb) value = 0;
       else { auto y = value & -value; value ^= (y << 1); }
     } else value ^= 1;] *)
Definition operator_inc_body (m : Z) (tc : toolchain) (g : gray_code)
  : option gray_code :=
  if is_odd tc g then
    if value g =? m then Some (mk_gray_code 0)
    else flip_left_of_lowest (value g)
  else Some (mk_gray_code (wrap W (Z.lxor (value g) 1))).

Definition operator_inc (tc : toolchain) (g : gray_code) : option gray_code :=
  match msb with
  | None => None
  | Some m => operator_inc_body m tc g
  end.

(** The same for [operator--]:
    [if (is_odd( *this)) value ^= 1;
     else {
       if (value == 0) value = msb;
       else { auto y = value & -value; value ^= (y << 1); }
     }] *)
Definition operator_dec_body (m : Z) (tc : toolchain) (g : gray_code)
  : option gray_code :=
  if is_odd tc g then Some (mk_gray_code (wrap W (Z.lxor (value g) 1)))
  else
    if value g =? 0 then Some (mk_gray_code m)
    else flip_left_of_lowest (value g).

Definition operator_dec (tc : toolchain) (g : gray_code) : option gray_code :=
  match msb with
  | None => None
  | Some m => operator_dec_body m tc g
  end.

(** The postfix forms return the value before the mutation, next to the
    mutated object. *)
Definition operator_inc_post (tc : toolchain) (g : gray_code)
  : option (gray_code * gray_code) :=
  option_map (fun g' => (g, g')) (operator_inc tc g).

Definition operator_dec_post (tc : toolchain) (g : gray_code)
  : option (gray_code * gray_code) :=
  option_map (fun g' => (g, g')) (operator_dec tc g).

(** *** Bitwise assignment

    [value &= other.value;] and the like; a [bool] operand is promoted
    to 0 or 1. *)

Definition and_assign (g other : gray_code) : gray_code :=
  mk_gray_code (wrap W (Z.land (value g) (value other))).

Definition or_assign (g other : gray_code) : gray_code :=
  mk_gray_code (wrap W (Z.lor (value g) (value other))).

Definition xor_assign (g other : gray_code) : gray_code :=
  mk_gray_code (wrap W (Z.lxor (value g) (value other))).

Definition and_assign_value (g : gray_code) (other : Z) : gray_code :=
  mk_gray_code (wrap W (Z.land (value g) other)).

Definition or_assign_value (g : gray_code) (other : Z) : gray_code :=
  mk_gray_code (wrap W (Z.lor (value g) other)).

Definition xor_assign_value (g : gray_code) (other : Z) : gray_code :=
  mk_gray_code (wrap W (Z.lxor (value g) other)).

Definition and_assign_bool (g : gray_code) (other : bool) : gray_code :=
  mk_gray_code (wrap W (Z.land (value g) (Z.b2z other))).

Definition or_assign_bool (g : gray_code) (other : bool) : gray_code :=
  mk_gray_code (wrap W (Z.lor (value g) (Z.b2z other))).

Definition xor_assign_bool (g : gray_code) (other : bool) : gray_code :=
  mk_gray_code (wrap W (Z.lxor (value g) (Z.b2z other))).

Definition shr_assign (g : gray_code) (pos : Z) : option gray_code :=
  option_map (fun v => mk_gray_code (wrap W v)) (shr W (value g) pos).

Definition shl_assign (g : gray_code) (pos : Z) : option gray_code :=
  option_map (fun v => mk_gray_code (wrap W v)) (shl W (value g) pos).

(** *** Comparison

    Two Gray codes: [lhs.value == rhs.value]; a Gray code and a plain
    value: [(rhs ^ (rhs >> 1)) == lhs.value]; [!=] is written with [!=]
    in place of [==]. *)

Definition operator_eq (lhs rhs : gray_code) : bool :=
  value lhs =? value rhs.

Definition operator_ne (lhs rhs : gray_code) : bool :=
  negb (value lhs =? value rhs).

Definition operator_eq_gray_value (lhs : gray_code) (rhs : Z) : bool :=
  Z.lxor rhs (Z.shiftr rhs 1) =? value lhs.

Definition operator_ne_gray_value (lhs : gray_code) (rhs : Z) : bool :=
  negb (Z.lxor rhs (Z.shiftr rhs 1) =? value lhs).

Definition operator_eq_value_gray (lhs : Z) (rhs : gray_code) : bool :=
  Z.lxor lhs (Z.shiftr lhs 1) =? value rhs.

Definition operator_ne_value_gray (lhs : Z) (rhs : gray_code) : bool :=
  negb (Z.lxor lhs (Z.shiftr lhs 1) =? value rhs).

(** *** Bitwise operators

    [return lhs &= rhs;] and the like, on the copy [lhs];
    [operator~]: [val.value = ~val.value;] *)

Definition operator_and (lhs rhs : gray_code) : gray_code := and_assign lhs rhs.
Definition operator_or (lhs rhs : gray_code) : gray_code := or_assign lhs rhs.
Definition operator_xor (lhs rhs : gray_code) : gray_code := xor_assign lhs rhs.

Definition operator_not (val : gray_code) : gray_code :=
  mk_gray_code (wrap W (Z.lnot (value val))).

Definition operator_shr (val : gray_code) (pos : Z) : option gray_code :=
  shr_assign val pos.

Definition operator_shl (val : gray_code) (pos : Z) : option gray_code :=
  shl_assign val pos.

Definition operator_and_bool (lhs : gray_code) (rhs : bool) : gray_code :=
  and_assign_bool lhs rhs.
Definition operator_bool_and (lhs : bool) (rhs : gray_code) : gray_code :=
  and_assign_bool rhs lhs.
Definition operator_or_bool (lhs : gray_code) (rhs : bool) : gray_code :=
  or_assign_bool lhs rhs.
Definition operator_bool_or (lhs : bool) (rhs : gray_code) : gray_code :=
  or_assign_bool rhs lhs.
Definition operator_xor_bool (lhs : gray_code) (rhs : bool) : gray_code :=
  xor_assign_bool lhs rhs.
Definition operator_bool_xor (lhs : bool) (rhs : gray_code) : gray_code :=
  xor_assign_bool rhs lhs.

(** [Unsigned& op= gray_code]: the result is the plain integer. *)
Definition value_and_assign (lhs : Z) (rhs : gray_code) : Z :=
  wrap W (Z.land lhs (value rhs)).
Definition value_or_assign (lhs : Z) (rhs : gray_code) : Z :=
  wrap W (Z.lor lhs (value rhs)).
Definition value_xor_assign (lhs : Z) (rhs : gray_code) : Z :=
  wrap W (Z.lxor lhs (value rhs)).

(** [swap(lhs, rhs)]: [auto tmp = lhs.value; lhs.value = rhs.value;
    rhs.value = tmp;] *)
Definition swap (p : gray_code * gray_code) : gray_code * gray_code :=
  let tmp := value (fst p) in
  (mk_gray_code (value (snd p)), mk_gray_code tmp).

End GrayCode.

(** ** The successor and predecessor rules, as the specification words them

    Section 4.6, on representations: the parity is that of the population
    count; an even code has its bit 0 flipped by the successor, an odd
    code the bit left of its lowest set bit [y = v & -v]; the predecessor
    mirrors this; the patterns [2^(W-1)] and [0] wrap. *)

Definition odd_bits (v : Z) : bool := Nat.odd (popcount v).

Definition flip_left (v : Z) : Z := Z.lxor v (Z.shiftl (Z.land v (- v)) 1).

Definition spec_successor (W v : Z) : Z :=
  if odd_bits v then
    if v =? 2 ^ (W - 1) then 0 else flip_left v
  else Z.lxor v 1.

Definition spec_predecessor (W v : Z) : Z :=
  if odd_bits v then Z.lxor v 1
  else
    if v =? 0 then 2 ^ (W - 1) else flip_left v.

(** ** Widths *)

(** The widths of the built-in unsigned types are powers of two. *)
Definition power_of_two (W : Z) : Prop := exists k : nat, W = 2 ^ Z.of_nat k.

(** The widths on which the intrinsic branch of [is_odd] receives the
    whole representation. *)
Definition parity_supported (tc : toolchain) (W : Z) : Prop :=
  match tc with
  | gnuc_or_clang => W <= int_digits
  | other_compiler => True
  end.

(** The widths on which [operator++] and [operator--] are defined and
    the two branches of [is_odd] agree: the powers of two up to the width
    of [int]. *)
Definition narrow (W : Z) : Prop := power_of_two W /\ W <= int_digits.

(** ** Auxiliary functions of the proofs *)

(** One step of the loop. *)
Definition xor_shift (s x : Z) : Z := Z.lxor x (Z.shiftr x s).

(** Powers of two, as the loop sees them. *)
Fixpoint pow2_pos (k : nat) : positive :=
  match k with
  | O => xH
  | S k' => xO (pow2_pos k')
  end.

Definition b2n (b : bool) : nat := if b then 1%nat else 0%nat.

(** The bits in which the codes of [x] and [x + 1] differ. *)
Definition gray_step (x : Z) : Z :=
  Z.lxor (xor_shift 1 x) (xor_shift 1 (x + 1)).

(** ** Callers of the library

    The counting loops of the test program, and the functions that the
    articles build on [gray_code]. *)

(** [n] executions of [++val], as in
    [for (auto val = gray(0u) ; val != gray(10u) ; ++val, ++i)]. *)
Fixpoint inc_times (W : Z) (tc : toolchain) (n : nat) (val : gray_code)
  : option gray_code :=
  match n with
  | O => Some val
  | S n' =>
      match operator_inc W tc val with
      | Some val' => inc_times W tc n' val'
      | None => None
      end
  end.

(** [n] executions of [--val], as in
    [for (auto val = gray(35u) ; val != gray(23u) ; --val, --i)]. *)
Fixpoint dec_times (W : Z) (tc : toolchain) (n : nat) (val : gray_code)
  : option gray_code :=
  match n with
  | O => Some val
  | S n' =>
      match operator_dec W tc val with
      | Some val' => dec_times W tc n' val'
      | None => None
      end
  end.

(** [neighbors(gray_code<Unsigned> code)] of the article "Neighbours in
    Gray Codes":
    [constexpr Unsigned msb = 1 << (digits - 1);
     gray_code<Unsigned> first, second;
     if (code.value == msb) {
       auto y = code.value & -code.value;
       first.value = code.value ^ (y << 1);  second.value = 0b0;
     } else if (code.value == 0b0) {
       first.value = msb;  second.value = 0b1;
     } else {
       auto y = code.value & -code.value;
       first.value = code.value ^ (y << 1);  second.value = code.value ^ 1;
     }
     return std::make_pair(first, second);] *)
Definition neighbors (W : Z) (code : gray_code)
  : option (gray_code * gray_code) :=
  match msb W with
  | None => None
  | Some m =>
      if value code =? m then
        match shl W (Z.land (value code) (neg W (value code))) 1 with
        | Some y1 =>
            Some (mk_gray_code (wrap W (Z.lxor (value code) y1)),
                  mk_gray_code (wrap W 0))
        | None => None
        end
      else if value code =? 0 then
        Some (mk_gray_code m, mk_gray_code (wrap W 1))
      else
        match shl W (Z.land (value code) (neg W (value code))) 1 with
        | Some y1 =>
            Some (mk_gray_code (wrap W (Z.lxor (value code) y1)),
                  mk_gray_code (wrap W (Z.lxor (value code) 1)))
        | None => None
        end
  end.

(** The loop of the second [parity] of the article "Gray Codes and
    Parity": [for (std::size_t i = digits / 2 ; i > 2 ; i >>= 1)
                value ^= (value >> i);] *)
Fixpoint xor_fold_above_2 (W : Z) (i : positive) (res : Z) : Z :=
  match i with
  | xH => res
  | xO xH => res
  | xO m => xor_fold_above_2 W m (wrap W (Z.lxor res (Z.shiftr res (Z.pos i))))
  | xI m => xor_fold_above_2 W m (wrap W (Z.lxor res (Z.shiftr res (Z.pos i))))
  end.

Definition xor_fold_above_2_from (W i res : Z) : Z :=
  match i with
  | Z.pos p => xor_fold_above_2 W p res
  | _ => res
  end.

(** That [parity]: after the loop,
    [value &= 0xf;
     return static_cast<bool>((0b0110'1001'1001'0110 >> value) & 1);] *)
Definition parity_lookup (W v : Z) : bool :=
  let v' := wrap W (Z.land (xor_fold_above_2_from W (W / 2) v) 15) in
  cast_bool (Z.land (Z.shiftr 27030 v') 1).

(** The body of the loop of the first [operator+] of the article "Gray
    Codes Addition -- Harold Lucal's Addition", at index [i]:
    [bool lhs_i = (lhs.value >> i) & 1u;
     bool rhs_i = (rhs.value >> i) & 1u;
     bool lhs_p_cpy = lhs_p;  bool rhs_p_cpy = rhs_p;
     Unsigned res_i = (lhs_p_cpy & rhs_p_cpy) ^ lhs_i ^ rhs_i;
     res |= (res_i << i);
     lhs_p = (lhs_p_cpy & (!rhs_p_cpy)) ^ lhs_i;
     rhs_p = ((!lhs_p_cpy) & rhs_p_cpy) ^ rhs_i;]
    The state is [(lhs_p, rhs_p, res)]. *)
Definition lucal_step (W : Z) (lhs rhs : gray_code) (i : Z)
    (st : bool * bool * gray_code) : option (bool * bool * gray_code) :=
  let '(lhs_p, rhs_p, res) := st in
  match shr W (value lhs) i, shr W (value rhs) i with
  | Some l, Some r =>
      let lhs_i := cast_bool (Z.land l 1) in
      let rhs_i := cast_bool (Z.land r 1) in
      let res_i :=
        wrap W (Z.lxor (Z.lxor (Z.land (Z.b2z lhs_p) (Z.b2z rhs_p))
                          (Z.b2z lhs_i)) (Z.b2z rhs_i)) in
      match shl W res_i i with
      | Some x =>
          Some (cast_bool (Z.lxor (Z.land (Z.b2z lhs_p) (Z.b2z (negb rhs_p)))
                             (Z.b2z lhs_i)),
                cast_bool (Z.lxor (Z.land (Z.b2z (negb lhs_p)) (Z.b2z rhs_p))
                             (Z.b2z rhs_i)),
                or_assign_value W res (wrap W x))
      | None => None
      end
  | _, _ => None
  end.

(** [for (Unsigned i{} ; i < digits ; ++i) { ... }]: [None] when the
    fuel runs out before the loop ends. *)
Fixpoint lucal_loop (W : Z) (lhs rhs : gray_code) (fuel : nat) (i : Z)
    (st : bool * bool * gray_code) : option gray_code :=
  match fuel with
  | O => None
  | S fuel' =>
      if i <? W then
        match lucal_step W lhs rhs i st with
        | Some st' => lucal_loop W lhs rhs fuel' (wrap W (i + 1)) st'
        | None => None
        end
      else Some (snd st)
  end.

(** That [operator+]:
    [bool lhs_p = is_odd(lhs);  bool rhs_p = is_odd(rhs);
     gray_code<Unsigned> res{};
     for (...) { ... }
     return res;]
    In [res |= (res_i << i)] the operand has the promoted type of
    [Unsigned]: for a type narrower than [int] it is an [int], which
    converts as well to [value_type] as to [bool], and the call is
    ambiguous between these two overloads of [operator|=]: [None]. *)
Definition operator_add (W : Z) (tc : toolchain) (fuel : nat)
    (lhs rhs : gray_code) : option gray_code :=
  if W <? int_digits then None
  else
    lucal_loop W lhs rhs fuel 0
      (is_odd W tc lhs, is_odd W tc rhs, gray_code_default).

(** ** Sanity checks against the test program ([gray_code<unsigned>]) *)

Example gray_5 : value (gray 32 5) = 7 /\ operator_value_type 32 (gray 32 5) = 5.
Proof. split; reflexivity. Qed.

Example gray_24_u16 :
  value (gray 16 24) = 20 /\ operator_value_type 16 (gray 16 24) = 24.
Proof. split; reflexivity. Qed.

Example inc_max_unsigned :
  operator_inc 32 gnuc_or_clang (gray 32 (2 ^ 32 - 1)) = Some (mk_gray_code 0).
Proof. reflexivity. Qed.

Example dec_zero_unsigned :
  operator_dec 32 other_compiler (gray 32 0) = Some (gray 32 (2 ^ 32 - 1)).
Proof. reflexivity. Qed.

Example is_even_15328 :
  is_even 32 gnuc_or_clang (gray 32 15328) = true
  /\ is_even 32 other_compiler (gray 32 12357) = false.
Proof. split; reflexivity. Qed.

Example bitwise_assignment_unsigned :
  value_and_assign 32 (value_or_assign 32 6 (gray 32 0)) (gray 32 4) = 6
  /\ value_or_assign 32 9 (gray 32 9) = 13
  /\ value_xor_assign 32 13 (gray 32 5) = 10.
Proof. repeat split. Qed.

Example swap_unsigned :
  swap (gray 32 52, gray 32 48) = (gray 32 48, gray 32 52).
Proof. reflexivity. Qed.

Example comparison_unsigned :
  operator_eq (gray 32 52) (gray 32 52) = true
  /\ operator_eq_gray_value (gray 32 52) 52 = true
  /\ operator_eq_value_gray 52 (gray 32 52) = true
  /\ operator_ne_gray_value (gray 32 52) 56 = true
  /\ operator_ne_value_gray 54 (gray 32 52) = true
  /\ operator_ne (gray 32 52) (gray 32 89) = true.
Proof. repeat split. Qed.

(** ** Bits of [W]-bit values *)

Lemma wrap_small W x : in_range W x -> wrap W x = x.
Proof. intros H. apply Z.mod_small. exact H. Qed.

Lemma wrap_in_range W x : 0 <= W -> in_range W (wrap W x).
Proof.
  intros HW. unfold in_range, wrap.
  apply Z.mod_pos_bound. apply Z.pow_pos_nonneg; lia.
Qed.

Lemma in_range_high_bits W x i :
  in_range W x -> W <= i -> Z.testbit x i = false.
Proof.
  intros [H0 H1] Hi.
  destruct (Z.eq_dec x 0) as [->|Hx]; [apply Z.testbit_0_l|].
  destruct (Z_lt_le_dec W 0) as [HW|HW].
  - rewrite (Z.pow_neg_r 2 W) in H1 by lia. lia.
  - apply Z.bits_above_log2; [lia|].
    assert (Z.log2 x < W) by (apply Z.log2_lt_pow2; lia). lia.
Qed.

Lemma high_bits_in_range W x :
  0 <= W -> 0 <= x -> (forall i, W <= i -> Z.testbit x i = false) ->
  in_range W x.
Proof.
  intros HW H0 Hb. split; [exact H0|].
  destruct (Z.eq_dec x 0) as [->|Hx]; [apply Z.pow_pos_nonneg; lia|].
  apply Z.log2_lt_pow2; [lia|].
  destruct (Z_lt_le_dec (Z.log2 x) W) as [Hl|Hl]; [exact Hl|].
  specialize (Hb (Z.log2 x) Hl).
  rewrite Z.bit_log2 in Hb by lia. discriminate.
Qed.

Lemma in_range_nonneg_width W x : in_range W x -> 0 <= W.
Proof.
  intros [H0 H1]. destruct (Z_lt_le_dec W 0) as [HW|HW]; [|exact HW].
  rewrite (Z.pow_neg_r 2 W) in H1 by lia. lia.
Qed.

Lemma lxor_in_range W a b :
  in_range W a -> in_range W b -> in_range W (Z.lxor a b).
Proof.
  intros Ha Hb. pose proof (in_range_nonneg_width _ _ Ha) as HW.
  apply high_bits_in_range; [exact HW| |].
  - apply Z.lxor_nonneg. unfold in_range in *. lia.
  - intros i Hi. rewrite Z.lxor_spec.
    rewrite (in_range_high_bits W a i Ha Hi), (in_range_high_bits W b i Hb Hi).
    reflexivity.
Qed.

Lemma land_in_range W a b :
  in_range W a -> in_range W b -> in_range W (Z.land a b).
Proof.
  intros Ha Hb. pose proof (in_range_nonneg_width _ _ Ha) as HW.
  apply high_bits_in_range; [exact HW| |].
  - apply Z.land_nonneg. unfold in_range in *. lia.
  - intros i Hi. rewrite Z.land_spec.
    rewrite (in_range_high_bits W a i Ha Hi). reflexivity.
Qed.

Lemma lor_in_range W a b :
  in_range W a -> in_range W b -> in_range W (Z.lor a b).
Proof.
  intros Ha Hb. pose proof (in_range_nonneg_width _ _ Ha) as HW.
  apply high_bits_in_range; [exact HW| |].
  - apply Z.lor_nonneg. unfold in_range in *. lia.
  - intros i Hi. rewrite Z.lor_spec.
    rewrite (in_range_high_bits W a i Ha Hi), (in_range_high_bits W b i Hb Hi).
    reflexivity.
Qed.

Lemma shiftr_in_range W a s :
  0 <= s -> in_range W a -> in_range W (Z.shiftr a s).
Proof.
  intros Hs Ha. pose proof (in_range_nonneg_width _ _ Ha) as HW.
  apply high_bits_in_range; [exact HW| |].
  - apply Z.shiftr_nonneg. unfold in_range in *. lia.
  - intros i Hi. rewrite Z.shiftr_spec by lia.
    apply (in_range_high_bits W a); [exact Ha|lia].
Qed.

Lemma shiftr_width W a : in_range W a -> Z.shiftr a W = 0.
Proof.
  intros Ha. pose proof (in_range_nonneg_width _ _ Ha) as HW.
  rewrite Z.shiftr_div_pow2 by exact HW.
  apply Z.div_small. exact Ha.
Qed.

(** ** One step of the loop: [x ^ (x >> s)] *)

Lemma xor_shift_in_range W s x :
  0 <= s -> in_range W x -> in_range W (xor_shift s x).
Proof.
  intros Hs Hx. apply lxor_in_range; [exact Hx|].
  apply shiftr_in_range; assumption.
Qed.

Lemma xor_shift_twice s x :
  0 <= s -> xor_shift s (xor_shift s x) = xor_shift (2 * s) x.
Proof.
  intros Hs. unfold xor_shift. apply Z.bits_inj'. intros i Hi.
  rewrite !Z.lxor_spec, !Z.shiftr_spec by lia.
  rewrite !Z.lxor_spec, !Z.shiftr_spec by lia.
  replace (i + s + s) with (i + 2 * s) by lia.
  destruct (Z.testbit x i), (Z.testbit x (i + s)), (Z.testbit x (i + 2 * s));
    reflexivity.
Qed.

Lemma xor_shift_comm s t x :
  0 <= s -> 0 <= t -> xor_shift s (xor_shift t x) = xor_shift t (xor_shift s x).
Proof.
  intros Hs Ht. unfold xor_shift. apply Z.bits_inj'. intros i Hi.
  rewrite !Z.lxor_spec, !Z.shiftr_spec by lia.
  rewrite !Z.lxor_spec, !Z.shiftr_spec by lia.
  replace (i + t + s) with (i + s + t) by lia.
  destruct (Z.testbit x i), (Z.testbit x (i + s)), (Z.testbit x (i + t)),
    (Z.testbit x (i + s + t)); reflexivity.
Qed.

Lemma xor_shift_width W x : in_range W x -> xor_shift W x = x.
Proof.
  intros Hx. unfold xor_shift. rewrite (shiftr_width W x Hx).
  apply Z.lxor_0_r.
Qed.

(** The loop, as the source writes it. *)
Lemma xor_fold_from_unfold W mask res :
  0 <= mask ->
  xor_fold_from W mask res =
  if mask =? 0 then res
  else xor_fold_from W (Z.shiftr mask 1)
         (wrap W (Z.lxor res (Z.shiftr res mask))).
Proof.
  intros Hm. destruct mask as [|p|p]; [reflexivity| |lia].
  destruct p; reflexivity.
Qed.

(** In range, the stores of the loop do not truncate. *)
Lemma xor_fold_in_range W p x :
  in_range W x -> in_range W (xor_fold W p x).
Proof.
  revert x. induction p as [p IH|p IH|]; intros x Hx; simpl;
    try apply IH; apply wrap_in_range; exact (in_range_nonneg_width _ _ Hx).
Qed.

Lemma xor_fold_from_in_range W mask x :
  in_range W x -> in_range W (xor_fold_from W mask x).
Proof.
  intros Hx. destruct mask; simpl; [exact Hx| |exact Hx].
  apply xor_fold_in_range. exact Hx.
Qed.

Lemma xor_fold_comm W s p x :
  0 <= s -> in_range W x ->
  xor_fold W p (xor_shift s x) = xor_shift s (xor_fold W p x).
Proof.
  intros Hs. revert x.
  assert (Hstep : forall q x, in_range W x ->
    wrap W (Z.lxor (xor_shift s x) (Z.shiftr (xor_shift s x) (Z.pos q)))
    = xor_shift s (wrap W (Z.lxor x (Z.shiftr x (Z.pos q))))).
  { intros q x Hx.
    change (wrap W (xor_shift (Z.pos q) (xor_shift s x))
            = xor_shift s (wrap W (xor_shift (Z.pos q) x))).
    rewrite !wrap_small by (repeat apply xor_shift_in_range; (lia || assumption)).
    apply xor_shift_comm; lia. }
  induction p as [p IH|p IH|]; intros x Hx; simpl.
  - rewrite Hstep by exact Hx. apply IH.
    apply wrap_in_range. exact (in_range_nonneg_width _ _ Hx).
  - rewrite Hstep by exact Hx. apply IH.
    apply wrap_in_range. exact (in_range_nonneg_width _ _ Hx).
  - apply Hstep. exact Hx.
Qed.

Lemma pow2_pos_spec k : Z.pos (pow2_pos k) = 2 ^ Z.of_nat k.
Proof.
  induction k as [|k IH]; [reflexivity|].
  rewrite Nat2Z.inj_succ, Z.pow_succ_r by lia.
  simpl pow2_pos. rewrite Pos2Z.inj_xO, IH. reflexivity.
Qed.

(** Starting at [2^k], the loop followed by a last shift by one is a
    single shift by [2^(k+1)]. *)
Lemma xor_shift_1_xor_fold W k x :
  in_range W x ->
  xor_shift 1 (xor_fold W (pow2_pos k) x) = xor_shift (2 ^ Z.of_nat (S k)) x.
Proof.
  revert x. induction k as [|k IH]; intros x Hx.
  - simpl xor_fold. change (Z.lxor x (Z.shiftr x 1)) with (xor_shift 1 x).
    rewrite wrap_small by (apply xor_shift_in_range; [lia|exact Hx]).
    rewrite xor_shift_twice by lia. reflexivity.
  - simpl xor_fold.
    change (Z.lxor x (Z.shiftr x (Z.pos (xO (pow2_pos k)))))
      with (xor_shift (Z.pos (pow2_pos (S k))) x).
    rewrite wrap_small by (apply xor_shift_in_range; [lia|exact Hx]).
    rewrite IH by (apply xor_shift_in_range; [lia|exact Hx]).
    rewrite pow2_pos_spec, xor_shift_twice by lia.
    f_equal. rewrite (Nat2Z.inj_succ (S k)), Z.pow_succ_r by lia. reflexivity.
Qed.

(** ** Powers of two *)

Lemma power_of_two_pos W : power_of_two W -> 0 < W.
Proof. intros [k ->]. apply Z.pow_pos_nonneg; lia. Qed.

Lemma power_of_two_half W :
  power_of_two W -> W = 1 \/ exists k, W = 2 ^ Z.of_nat (S k) /\ W / 2 = Z.pos (pow2_pos k).
Proof.
  intros [[|k] ->]; [left; reflexivity|right].
  exists k. split; [reflexivity|].
  rewrite pow2_pos_spec, Nat2Z.inj_succ, Z.pow_succ_r by lia.
  rewrite Z.mul_comm. apply Z.div_mul. lia.
Qed.

(** ** Conversions *)

Lemma to_gray_xor_shift W x : in_range W x -> to_gray W x = xor_shift 1 x.
Proof.
  intros Hx. unfold to_gray. apply wrap_small.
  apply (xor_shift_in_range W 1 x); [lia|exact Hx].
Qed.

Lemma to_gray_in_range W x : in_range W x -> in_range W (to_gray W x).
Proof.
  intros Hx. rewrite to_gray_xor_shift by exact Hx.
  apply xor_shift_in_range; [lia|exact Hx].
Qed.

Lemma from_gray_in_range W y : in_range W y -> in_range W (from_gray W y).
Proof. apply xor_fold_from_in_range. Qed.

(** The constructor stores [to_gray], the conversion operator computes
    [from_gray]. *)
Lemma gray_to_gray W v : value (gray W v) = to_gray W v.
Proof.
  unfold gray, gray_code_of_value, to_gray. simpl.
  rewrite Z.lxor_comm. reflexivity.
Qed.

Lemma operator_value_type_from_gray W g :
  operator_value_type W g = from_gray W (value g).
Proof. reflexivity. Qed.

Lemma to_gray_from_gray W y :
  power_of_two W -> in_range W y -> to_gray W (from_gray W y) = y.
Proof.
  intros HW Hy.
  rewrite to_gray_xor_shift by (apply from_gray_in_range; exact Hy).
  unfold from_gray.
  destruct (power_of_two_half W HW) as [->|[k [HWk Hhalf]]].
  - simpl. apply (xor_shift_width 1). exact Hy.
  - rewrite Hhalf. simpl xor_fold_from.
    rewrite xor_shift_1_xor_fold by exact Hy.
    rewrite <- HWk. apply xor_shift_width. exact Hy.
Qed.

Lemma from_gray_to_gray W x :
  power_of_two W -> in_range W x -> from_gray W (to_gray W x) = x.
Proof.
  intros HW Hx.
  rewrite to_gray_xor_shift by exact Hx.
  unfold from_gray.
  destruct (power_of_two_half W HW) as [->|[k [HWk Hhalf]]].
  - simpl. apply (xor_shift_width 1). exact Hx.
  - rewrite Hhalf. simpl xor_fold_from.
    rewrite xor_fold_comm by (lia || exact Hx).
    rewrite xor_shift_1_xor_fold by exact Hx.
    rewrite <- HWk. apply xor_shift_width. exact Hx.
Qed.

Lemma to_gray_injective W x y :
  power_of_two W -> in_range W x -> in_range W y ->
  to_gray W x = to_gray W y -> x = y.
Proof.
  intros HW Hx Hy E.
  rewrite <- (from_gray_to_gray W x HW Hx), <- (from_gray_to_gray W y HW Hy).
  rewrite E. reflexivity.
Qed.

(** C1. For a width [W] that is a power of two and all [W]-bit values
    [x] and [y]: converting [x] to Gray code and back gives [x], both
    for the article's [to_gray] / [from_gray] and for the constructor
    [gray_code(value_type)] followed by [operator value_type]; converting
    the bit pattern [y] from Gray code and back to it gives [y]; both
    conversions stay within [[0, 2^W)], and the constructor is injective:
    it is a bijection of [[0, 2^W)] whose inverse is the conversion
    operator. *)
Theorem gray_round_trip W x y :
  power_of_two W -> in_range W x -> in_range W y ->
  from_gray W (to_gray W x) = x
  /\ to_gray W (from_gray W y) = y
  /\ operator_value_type W (gray W x) = x
  /\ value (gray W (operator_value_type W (mk_gray_code y))) = y
  /\ in_range W (value (gray W x))
  /\ in_range W (operator_value_type W (mk_gray_code y))
  /\ (value (gray W x) = value (gray W y) -> x = y).
Proof.
  intros HW Hx Hy.
  rewrite !gray_to_gray, !operator_value_type_from_gray, gray_to_gray.
  simpl value.
  repeat split.
  - apply from_gray_to_gray; assumption.
  - apply to_gray_from_gray; assumption.
  - apply from_gray_to_gray; assumption.
  - apply to_gray_from_gray; assumption.
  - apply to_gray_in_range; assumption.
  - apply to_gray_in_range; assumption.
  - apply from_gray_in_range; assumption.
  - apply from_gray_in_range; assumption.
  - apply to_gray_injective; assumption.
Qed.

Lemma power_of_two_8 : power_of_two 8.
Proof. exists 3%nat. reflexivity. Qed.

Lemma power_of_two_16 : power_of_two 16.
Proof. exists 4%nat. reflexivity. Qed.

Lemma power_of_two_32 : power_of_two 32.
Proof. exists 5%nat. reflexivity. Qed.

Lemma power_of_two_64 : power_of_two 64.
Proof. exists 6%nat. reflexivity. Qed.

Lemma in_range_dec_true W x :
  (0 <=? x) && (x <? 2 ^ W) = true -> in_range W x.
Proof.
  intros H. apply andb_true_iff in H. destruct H as [H0 H1].
  split; [apply Z.leb_le; exact H0|apply Z.ltb_lt; exact H1].
Qed.

Lemma gray_round_trip_witness :
  from_gray 8 (to_gray 8 24) = 24
  /\ to_gray 8 (from_gray 8 20) = 20
  /\ operator_value_type 8 (gray 8 24) = 24
  /\ value (gray 8 (operator_value_type 8 (mk_gray_code 20))) = 20
  /\ in_range 8 (value (gray 8 24))
  /\ in_range 8 (operator_value_type 8 (mk_gray_code 20))
  /\ (value (gray 8 24) = value (gray 8 20) -> 24 = 20).
Proof.
  apply (gray_round_trip 8 24 20).
  - exact power_of_two_8.
  - apply in_range_dec_true. reflexivity.
  - apply in_range_dec_true. reflexivity.
Defined.

(** ** Population count and parity *)

Lemma popcount_div2 x :
  0 <= x -> popcount x = (popcount (Z.div2 x) + b2n (Z.odd x))%nat.
Proof.
  intros Hx. destruct x as [|p|p]; [reflexivity| |lia].
  destruct p; simpl; lia.
Qed.

Lemma odd_popcount_div2 x :
  0 <= x ->
  Nat.odd (popcount x) = xorb (Nat.odd (popcount (Z.div2 x))) (Z.odd x).
Proof.
  intros Hx. rewrite (popcount_div2 x Hx), Nat.odd_add.
  destruct (Z.odd x); reflexivity.
Qed.

Lemma odd_lxor a b : Z.odd (Z.lxor a b) = xorb (Z.odd a) (Z.odd b).
Proof. rewrite <- !Z.bit0_odd. apply Z.lxor_spec. Qed.

Lemma div2_lxor a b : Z.div2 (Z.lxor a b) = Z.lxor (Z.div2 a) (Z.div2 b).
Proof. rewrite !Z.div2_spec. apply Z.shiftr_lxor. Qed.

Lemma div2_in_range n a :
  in_range (Z.of_nat (S n)) a -> in_range (Z.of_nat n) (Z.div2 a).
Proof.
  unfold in_range. rewrite Nat2Z.inj_succ, Z.pow_succ_r by lia.
  rewrite Z.div2_div. intros [H0 H1]. split.
  - apply Z.div_pos; lia.
  - apply Z.div_lt_upper_bound; lia.
Qed.

Lemma odd_popcount_lxor_bounded n a b :
  in_range (Z.of_nat n) a -> in_range (Z.of_nat n) b ->
  Nat.odd (popcount (Z.lxor a b))
  = xorb (Nat.odd (popcount a)) (Nat.odd (popcount b)).
Proof.
  revert a b. induction n as [|n IH]; intros a b Ha Hb.
  - unfold in_range in Ha, Hb. simpl in Ha, Hb.
    assert (a = 0) as -> by lia. assert (b = 0) as -> by lia. reflexivity.
  - assert (0 <= Z.lxor a b)
      by (apply Z.lxor_nonneg; unfold in_range in *; lia).
    rewrite (odd_popcount_div2 (Z.lxor a b)) by assumption.
    rewrite (odd_popcount_div2 a), (odd_popcount_div2 b)
      by (unfold in_range in *; lia).
    rewrite div2_lxor, odd_lxor.
    rewrite (IH (Z.div2 a) (Z.div2 b)) by (apply div2_in_range; assumption).
    btauto.
Qed.

Lemma in_range_mono W W' x : W <= W' -> in_range W x -> in_range W' x.
Proof.
  intros HWW' Hx. pose proof (in_range_nonneg_width _ _ Hx) as HW.
  destruct Hx as [H0 H1]. split; [exact H0|].
  apply Z.lt_le_trans with (2 ^ W); [exact H1|].
  apply Z.pow_le_mono_r; lia.
Qed.

Lemma in_range_of_nat x : 0 <= x -> in_range (Z.of_nat (Z.to_nat x)) x.
Proof.
  intros Hx. rewrite Z2Nat.id by exact Hx. split; [exact Hx|].
  apply Z.pow_gt_lin_r; lia.
Qed.

Lemma odd_popcount_lxor a b :
  0 <= a -> 0 <= b ->
  Nat.odd (popcount (Z.lxor a b))
  = xorb (Nat.odd (popcount a)) (Nat.odd (popcount b)).
Proof.
  intros Ha Hb.
  apply (odd_popcount_lxor_bounded (Z.to_nat (Z.max a b))).
  - apply (in_range_mono (Z.of_nat (Z.to_nat a))); [lia|].
    apply in_range_of_nat; exact Ha.
  - apply (in_range_mono (Z.of_nat (Z.to_nat b))); [lia|].
    apply in_range_of_nat; exact Hb.
Qed.

(** The parity of the bits of [x ^ (x >> 1)] is the last bit of [x]. *)
Lemma odd_popcount_xor_shift_1 x :
  0 <= x -> Nat.odd (popcount (xor_shift 1 x)) = Z.odd x.
Proof.
  intros Hx. unfold xor_shift.
  rewrite odd_popcount_lxor by (try apply Z.shiftr_nonneg; lia).
  rewrite (odd_popcount_div2 x Hx), Z.div2_spec. btauto.
Qed.

Lemma odd_popcount_to_gray W x :
  in_range W x -> Nat.odd (popcount (to_gray W x)) = Z.odd x.
Proof.
  intros Hx. rewrite to_gray_xor_shift by exact Hx.
  apply odd_popcount_xor_shift_1. apply Hx.
Qed.

Lemma odd_popcount_from_gray W y :
  power_of_two W -> in_range W y ->
  Nat.odd (popcount y) = Z.odd (from_gray W y).
Proof.
  intros HW Hy.
  rewrite <- (to_gray_from_gray W y HW Hy) at 1.
  apply odd_popcount_to_gray. apply from_gray_in_range. exact Hy.
Qed.

Lemma cast_bool_land_1 x : cast_bool (Z.land x 1) = Z.odd x.
Proof.
  unfold cast_bool. change 1 with (Z.ones 1).
  rewrite Z.land_ones by lia. change (2 ^ 1) with 2.
  rewrite Zmod_odd. destruct (Z.odd x); reflexivity.
Qed.

Lemma cast_bool_mod_2 n : cast_bool (Z.of_nat (n mod 2)) = Nat.odd n.
Proof.
  unfold cast_bool.
  rewrite (Nat.div_mod_eq n 2) at 2.
  rewrite Nat.add_comm, Nat.odd_add_mul_2.
  pose proof (Nat.mod_upper_bound n 2 ltac:(lia)) as Hlt.
  destruct (n mod 2)%nat as [|[|m]]; [reflexivity|reflexivity|lia].
Qed.

(** The portable branch of [is_odd] is the last bit of the converted
    value, whatever the width. *)
Lemma is_odd_other_compiler W g :
  is_odd W other_compiler g = Z.odd (operator_value_type W g).
Proof. unfold is_odd. apply cast_bool_land_1. Qed.

(** The intrinsic branch counts the low [int_digits] bits. *)
Lemma is_odd_gnuc W g :
  is_odd W gnuc_or_clang g = Nat.odd (popcount (wrap int_digits (value g))).
Proof. unfold is_odd, builtin_parity. apply cast_bool_mod_2. Qed.

Lemma is_odd_popcount W tc g :
  power_of_two W -> parity_supported tc W -> in_range W (value g) ->
  is_odd W tc g = Nat.odd (popcount (value g)).
Proof.
  intros HW Htc Hg. destruct tc.
  - rewrite is_odd_gnuc. simpl in Htc.
    rewrite wrap_small; [reflexivity|].
    apply (in_range_mono W); assumption.
  - rewrite is_odd_other_compiler, operator_value_type_from_gray.
    symmetry. apply odd_popcount_from_gray; assumption.
Qed.

Lemma is_odd_value W tc g :
  power_of_two W -> parity_supported tc W -> in_range W (value g) ->
  is_odd W tc g = Z.odd (operator_value_type W g).
Proof.
  intros HW Htc Hg. rewrite is_odd_popcount by assumption.
  apply odd_popcount_from_gray; assumption.
Qed.

Lemma is_odd_gray W tc x :
  power_of_two W -> parity_supported tc W -> in_range W x ->
  is_odd W tc (gray W x) = Z.odd x
  /\ is_odd W tc (gray W x) = Nat.odd (popcount (value (gray W x))).
Proof.
  intros HW Htc Hx.
  assert (Hg : in_range W (value (gray W x)))
    by (rewrite gray_to_gray; apply to_gray_in_range; exact Hx).
  split.
  - rewrite is_odd_value by assumption.
    rewrite operator_value_type_from_gray, gray_to_gray.
    rewrite from_gray_to_gray by assumption. reflexivity.
  - apply is_odd_popcount; assumption.
Qed.

(** ** Consecutive values *)

Lemma shiftr_1_double q : Z.shiftr (2 * q) 1 = q.
Proof.
  rewrite Z.shiftr_div_pow2 by lia. change (2 ^ 1) with 2.
  rewrite Z.mul_comm. apply Z.div_mul. lia.
Qed.

Lemma shiftr_1_succ_double q : Z.shiftr (2 * q + 1) 1 = q.
Proof.
  rewrite Z.shiftr_div_pow2 by lia. change (2 ^ 1) with 2.
  replace (2 * q + 1) with (1 + q * 2) by lia.
  rewrite Z.div_add by lia. reflexivity.
Qed.

Lemma testbit_succ_shiftr q i :
  0 <= i -> Z.testbit q (Z.succ i) = Z.testbit (Z.shiftr q 1) i.
Proof.
  intros Hi. rewrite Z.shiftr_spec by exact Hi.
  rewrite Z.add_1_r. reflexivity.
Qed.

Lemma gray_step_even q : gray_step (2 * q) = 1.
Proof.
  unfold gray_step, xor_shift.
  rewrite shiftr_1_double, shiftr_1_succ_double.
  apply Z.bits_inj'. intros i Hi.
  rewrite !Z.lxor_spec.
  destruct (Z.eq_dec i 0) as [->|Hne].
  - rewrite Z.testbit_even_0, Z.testbit_odd_0.
    destruct (Z.testbit q 0); reflexivity.
  - replace i with (Z.succ (Z.pred i)) by lia.
    rewrite Z.testbit_even_succ, Z.testbit_odd_succ by lia.
    rewrite (Z.pow2_bits_false 0) by lia.
    destruct (Z.testbit q (Z.pred i)), (Z.testbit q (Z.succ (Z.pred i)));
      reflexivity.
Qed.

Lemma gray_step_odd q : gray_step (2 * q + 1) = 2 * gray_step q.
Proof.
  unfold gray_step, xor_shift.
  replace (2 * q + 1 + 1) with (2 * (q + 1)) by lia.
  rewrite shiftr_1_double, shiftr_1_succ_double.
  apply Z.bits_inj'. intros i Hi.
  destruct (Z.eq_dec i 0) as [->|Hne].
  - rewrite Z.testbit_even_0, !Z.lxor_spec.
    rewrite Z.testbit_even_0, Z.testbit_odd_0, !Z.bit0_odd.
    rewrite Z.odd_add. change (Z.odd 1) with true.
    destruct (Z.odd q); reflexivity.
  - replace i with (Z.succ (Z.pred i)) by lia.
    set (j := Z.pred i). assert (Hj : 0 <= j) by (unfold j; lia).
    rewrite Z.testbit_even_succ by exact Hj.
    rewrite !Z.lxor_spec.
    rewrite Z.testbit_even_succ, Z.testbit_odd_succ by exact Hj.
    rewrite !testbit_succ_shiftr by exact Hj.
    reflexivity.
Qed.

Lemma gray_step_power x : 0 <= x -> exists k, 0 <= k /\ gray_step x = 2 ^ k.
Proof.
  intros Hx. destruct x as [|p|p]; [exists 0; split; [lia|reflexivity]| |lia].
  induction p as [p IH|p IH|].
  - destruct (IH ltac:(lia)) as [k [Hk E]].
    exists (Z.succ k). split; [lia|].
    rewrite Pos2Z.inj_xI, gray_step_odd, E, Z.pow_succ_r by lia.
    reflexivity.
  - exists 0. split; [lia|]. rewrite Pos2Z.inj_xO. apply gray_step_even.
  - exists 1. split; [lia|reflexivity].
Qed.

Lemma popcount_pow2 k : 0 <= k -> popcount (2 ^ k) = 1%nat.
Proof.
  intros Hk. rewrite <- (Z2Nat.id k Hk), <- pow2_pos_spec.
  induction (Z.to_nat k) as [|n IH]; [reflexivity|exact IH].
Qed.

(** C9. For every [x] in [[0, 2^W - 1)], the representations of the Gray
    codes constructed from [x] and from [x + 1] differ in exactly one bit
    position: there is one position [k] below [W] at which their bits
    differ, they agree at every other position, and the population count
    of their exclusive or is 1. *)
Theorem single_bit_change W x :
  0 <= x < 2 ^ W - 1 ->
  popcount (Z.lxor (value (gray W x)) (value (gray W (x + 1)))) = 1%nat
  /\ exists k, 0 <= k < W
     /\ forall i, 0 <= i ->
          (Z.testbit (value (gray W x)) i
           = Z.testbit (value (gray W (x + 1))) i <-> i <> k).
Proof.
  intros Hx.
  assert (Hr : in_range W x) by (unfold in_range; lia).
  assert (Hr1 : in_range W (x + 1)) by (unfold in_range; lia).
  rewrite !gray_to_gray.
  destruct (gray_step_power x ltac:(lia)) as [k [Hk E]].
  assert (EG : Z.lxor (to_gray W x) (to_gray W (x + 1)) = 2 ^ k).
  { rewrite !to_gray_xor_shift by assumption. exact E. }
  split; [rewrite EG; apply popcount_pow2; exact Hk|].
  exists k. split.
  - split; [exact Hk|].
    assert (Hin : in_range W (2 ^ k)).
    { rewrite <- EG. apply lxor_in_range; apply to_gray_in_range; assumption. }
    destruct Hin as [_ Hlt].
    apply (Z.pow_lt_mono_r_iff 2); [lia| |exact Hlt].
    exact (in_range_nonneg_width _ _ Hr).
  - intros i Hi.
    assert (Hb : Z.testbit (Z.lxor (to_gray W x) (to_gray W (x + 1))) i
                 = (k =? i)).
    { rewrite EG. apply Z.pow2_bits_eqb. exact Hk. }
    rewrite Z.lxor_spec in Hb.
    destruct (Z.eqb_spec k i) as [->|Hne].
    + split; [|intros Hc; contradiction Hc; reflexivity].
      intros Heq. rewrite Heq, xorb_nilpotent in Hb. discriminate.
    + split; [intros _ Hc; apply Hne; symmetry; exact Hc|].
      intros _. apply xorb_eq. exact Hb.
Qed.

Lemma single_bit_change_witness :
  popcount (Z.lxor (value (gray 8 127)) (value (gray 8 (127 + 1)))) = 1%nat
  /\ exists k, 0 <= k < 8
     /\ forall i, 0 <= i ->
          (Z.testbit (value (gray 8 127)) i
           = Z.testbit (value (gray 8 (127 + 1))) i <-> i <> k).
Proof.
  apply (single_bit_change 8 127). simpl. lia.
Defined.

(** ** Comparison operators *)

(** C7. For every [gray_code] [g] and every plain value [n] of the same
    power-of-two width, [g == n] and [n == g] both hold exactly when
    [to_gray n], that is [n ^ (n >> 1)], is the stored representation of
    [g]; equivalently, exactly when the binary value that [g] encodes,
    the result of [operator value_type], is [n]. *)
Theorem mixed_equality W g n :
  power_of_two W -> in_range W (value g) -> in_range W n ->
  to_gray W n = Z.lxor n (Z.shiftr n 1)
  /\ operator_eq_gray_value g n = (to_gray W n =? value g)
  /\ operator_eq_value_gray n g = (to_gray W n =? value g)
  /\ (operator_eq_gray_value g n = true <-> operator_value_type W g = n)
  /\ (operator_eq_value_gray n g = true <-> operator_value_type W g = n).
Proof.
  intros HW Hg Hn.
  assert (E : to_gray W n = Z.lxor n (Z.shiftr n 1))
    by (apply to_gray_xor_shift; exact Hn).
  assert (Hiff : (to_gray W n =? value g) = true <-> operator_value_type W g = n).
  { rewrite Z.eqb_eq, operator_value_type_from_gray. split.
    - intros <-. apply from_gray_to_gray; assumption.
    - intros <-. apply to_gray_from_gray; assumption. }
  unfold operator_eq_gray_value, operator_eq_value_gray.
  rewrite <- E. repeat split; try reflexivity; apply Hiff.
Qed.

Lemma mixed_equality_witness :
  to_gray 32 52 = Z.lxor 52 (Z.shiftr 52 1)
  /\ operator_eq_gray_value (gray 32 52) 52 = (to_gray 32 52 =? value (gray 32 52))
  /\ operator_eq_value_gray 52 (gray 32 52) = (to_gray 32 52 =? value (gray 32 52))
  /\ (operator_eq_gray_value (gray 32 52) 52 = true
      <-> operator_value_type 32 (gray 32 52) = 52)
  /\ (operator_eq_value_gray 52 (gray 32 52) = true
      <-> operator_value_type 32 (gray 32 52) = 52).
Proof.
  apply (mixed_equality 32 (gray 32 52) 52).
  - exact power_of_two_32.
  - apply in_range_dec_true. reflexivity.
  - apply in_range_dec_true. reflexivity.
Defined.

(** C10. For each of the three pairs of equality operators -- two Gray
    codes, a Gray code and a plain value, a plain value and a Gray code --
    and for all operands, [operator!=] is the negation of [operator==]. *)
Theorem inequality_negates_equality (a b : gray_code) (n : Z) :
  operator_ne a b = negb (operator_eq a b)
  /\ operator_ne_gray_value a n = negb (operator_eq_gray_value a n)
  /\ operator_ne_value_gray n a = negb (operator_eq_value_gray n a).
Proof. repeat split. Qed.

(** ** Bitwise operators *)

Lemma wrap_to_int W z :
  0 <= W <= int_digits -> wrap W (to_int z) = wrap W z.
Proof.
  intros HW. unfold wrap, to_int, int_digits in *.
  assert (E32 : 2 ^ 32 = 2 ^ (32 - W) * 2 ^ W)
    by (rewrite <- Z.pow_add_r by lia; f_equal; lia).
  assert (Hpos : 0 < 2 ^ W) by (apply Z.pow_pos_nonneg; lia).
  rewrite (Z.mod_eq (z + 2 ^ (32 - 1)) (2 ^ 32))
    by (apply Z.pow_nonzero; lia).
  replace (z + 2 ^ (32 - 1)
           - 2 ^ 32 * ((z + 2 ^ (32 - 1)) / 2 ^ 32) - 2 ^ (32 - 1))
    with (z + (- (2 ^ (32 - W) * ((z + 2 ^ (32 - 1)) / 2 ^ 32))) * 2 ^ W)
    by (rewrite E32; ring).
  apply Z_mod_plus_full.
Qed.

Lemma power_of_two_below_int W :
  power_of_two W -> W < int_digits -> W <= 16.
Proof.
  intros [k ->] Hlt. unfold int_digits in Hlt.
  destruct (le_lt_dec k 4) as [Hk|Hk].
  - change 16 with (2 ^ 4). apply Z.pow_le_mono_r; lia.
  - assert (2 ^ 5 <= 2 ^ Z.of_nat k) by (apply Z.pow_le_mono_r; lia).
    change (2 ^ 5) with 32 in *. lia.
Qed.

(** A left shift by less than the width is defined on every supported
    width, and is the shift of the representation modulo [2^W]. *)
Lemma shl_wrap W a n :
  power_of_two W -> in_range W a -> 0 <= n < W ->
  exists r, shl W a n = Some r /\ wrap W r = wrap W (Z.shiftl a n).
Proof.
  intros HW Ha Hn. rewrite Z.shiftl_mul_pow2 by lia. unfold shl.
  destruct (Z.ltb_spec W int_digits) as [Hlt|Hge].
  - pose proof (power_of_two_below_int W HW Hlt) as H16.
    unfold int_shl.
    assert (Hb : a * 2 ^ n < 2 ^ int_digits).
    { destruct Ha as [Ha0 Ha1].
      assert (2 ^ W <= 2 ^ 16) by (apply Z.pow_le_mono_r; lia).
      assert (2 ^ n < 2 ^ 16) by (apply Z.pow_lt_mono_r; lia).
      assert (0 < 2 ^ n) by (apply Z.pow_pos_nonneg; lia).
      change (2 ^ int_digits) with (2 ^ 16 * 2 ^ 16). nia. }
    replace ((0 <=? a) && (0 <=? n) && (n <? int_digits)
             && (a * 2 ^ n <? 2 ^ int_digits)) with true.
    + eexists. split; [reflexivity|]. apply wrap_to_int. lia.
    + symmetry. rewrite !andb_true_iff. unfold in_range in Ha.
      repeat split; try apply Z.leb_le; try apply Z.ltb_lt; lia.
  - replace ((0 <=? n) && (n <? W)) with true.
    + eexists. split; [reflexivity|]. unfold wrap. apply Z.mod_mod.
      apply Z.pow_nonzero; lia.
    + symmetry. rewrite andb_true_iff.
      split; [apply Z.leb_le|apply Z.ltb_lt]; lia.
Qed.

Lemma shr_defined W a n :
  0 <= n < W -> shr W a n = Some (Z.shiftr a n).
Proof.
  intros Hn. unfold shr.
  replace ((0 <=? n) && (n <? Z.max W int_digits)) with true; [reflexivity|].
  symmetry. rewrite andb_true_iff.
  split; [apply Z.leb_le|apply Z.ltb_lt]; lia.
Qed.

Lemma wrap_lnot_bits W v i :
  0 <= i < W ->
  Z.testbit (wrap W (Z.lnot v)) i = negb (Z.testbit v i).
Proof.
  intros Hi. unfold wrap.
  rewrite Z.mod_pow2_bits_low by lia.
  apply Z.lnot_spec. lia.
Qed.

(** Whenever a left shift is defined, its result is the shifted
    representation modulo [2^W]. *)
Lemma shl_some W a n r :
  0 <= W -> shl W a n = Some r ->
  0 <= n /\ wrap W r = wrap W (Z.shiftl a n).
Proof.
  intros HW. unfold shl, int_shl.
  destruct (Z.ltb_spec W int_digits) as [Hlt|Hge].
  - destruct ((0 <=? a) && (0 <=? n) && (n <? int_digits)
              && (a * 2 ^ n <? 2 ^ int_digits)) eqn:C; [|discriminate].
    intros [= <-]. rewrite !andb_true_iff in C.
    destruct C as [[[_ C1] _] _]. apply Z.leb_le in C1.
    split; [exact C1|].
    rewrite wrap_to_int by lia.
    rewrite Z.shiftl_mul_pow2 by exact C1. reflexivity.
  - destruct ((0 <=? n) && (n <? W)) eqn:C; [|discriminate].
    intros [= <-]. apply andb_true_iff in C. destruct C as [C0 _].
    apply Z.leb_le in C0. split; [exact C0|].
    rewrite Z.shiftl_mul_pow2 by exact C0.
    unfold wrap. apply Z.mod_mod. apply Z.pow_nonzero; lia.
Qed.

Lemma shr_some W a n r : shr W a n = Some r -> 0 <= n /\ r = Z.shiftr a n.
Proof.
  unfold shr.
  destruct ((0 <=? n) && (n <? Z.max W int_digits)) eqn:C; [|discriminate].
  intros [= <-]. apply andb_true_iff in C. destruct C as [C0 _].
  apply Z.leb_le in C0. split; [exact C0|reflexivity].
Qed.

(** C8. For all [gray_code] values [a] and [b] of a supported width, the
    homogeneous bitwise operators act on the raw representations and
    return a [gray_code]: [a & b], [a | b], [a ^ b] (and [a &= b]) hold
    the bitwise AND, OR, XOR of the two representations; [~a] holds the
    [W]-bit complement of the representation of [a]; [a >> n] and
    [a << n], whenever the shift is defined, hold the representation of
    [a] shifted by [n] (the left shift modulo [2^W]), and they are
    defined for every count [pos] below the width.  In particular the
    representation of [gray(42) & gray(28)] is [to_gray 42 & to_gray 28],
    which is not [to_gray (42 & 28)]. *)
Theorem bitwise_on_representations W a b pos :
  power_of_two W -> in_range W (value a) -> in_range W (value b) ->
  0 <= pos < W ->
  value (operator_and W a b) = Z.land (value a) (value b)
  /\ value (and_assign W a b) = Z.land (value a) (value b)
  /\ value (operator_or W a b) = Z.lor (value a) (value b)
  /\ value (operator_xor W a b) = Z.lxor (value a) (value b)
  /\ in_range W (value (operator_not W a))
  /\ (forall i, 0 <= i < W ->
        Z.testbit (value (operator_not W a)) i = negb (Z.testbit (value a) i))
  /\ operator_shr W a pos = Some (mk_gray_code (Z.shiftr (value a) pos))
  /\ operator_shl W a pos
     = Some (mk_gray_code (wrap W (Z.shiftl (value a) pos)))
  /\ (forall n r, operator_shr W a n = Some r ->
        value r = Z.shiftr (value a) n)
  /\ (forall n r, operator_shl W a n = Some r ->
        value r = wrap W (Z.shiftl (value a) n))
  /\ value (operator_and 32 (gray 32 42) (gray 32 28))
     = Z.land (to_gray 32 42) (to_gray 32 28)
  /\ value (operator_and 32 (gray 32 42) (gray 32 28))
     <> to_gray 32 (Z.land 42 28).
Proof.
  intros HW Ha Hb Hpos.
  pose proof (in_range_nonneg_width _ _ Ha) as HW0.
  unfold operator_and, operator_or, operator_xor, operator_not,
    operator_shr, operator_shl, and_assign, or_assign, xor_assign,
    shr_assign, shl_assign.
  simpl value.
  rewrite !wrap_small
    by (apply land_in_range || apply lor_in_range || apply lxor_in_range;
        assumption).
  repeat split.
  - apply wrap_in_range. exact HW0.
  - apply wrap_in_range. exact HW0.
  - intros i Hi. apply wrap_lnot_bits. exact Hi.
  - rewrite shr_defined by exact Hpos. simpl.
    rewrite wrap_small by (apply shiftr_in_range; [lia|exact Ha]).
    reflexivity.
  - destruct (shl_wrap W (value a) pos HW Ha Hpos) as [r [-> Hr]].
    simpl. rewrite Hr. reflexivity.
  - intros n r. destruct (shr W (value a) n) as [v|] eqn:E; [|discriminate].
    simpl. intros [= <-]. simpl value.
    destruct (shr_some W (value a) n v E) as [Hn ->].
    apply wrap_small. apply shiftr_in_range; [exact Hn|exact Ha].
  - intros n r. destruct (shl W (value a) n) as [v|] eqn:E; [|discriminate].
    simpl. intros [= <-]. simpl value.
    apply (shl_some W (value a) n v HW0 E).
  - vm_compute. discriminate.
Qed.

Lemma bitwise_on_representations_witness :
  value (operator_and 32 (gray 32 42) (gray 32 28))
  = Z.land (value (gray 32 42)) (value (gray 32 28))
  /\ value (and_assign 32 (gray 32 42) (gray 32 28))
     = Z.land (value (gray 32 42)) (value (gray 32 28))
  /\ value (operator_or 32 (gray 32 42) (gray 32 28))
     = Z.lor (value (gray 32 42)) (value (gray 32 28))
  /\ value (operator_xor 32 (gray 32 42) (gray 32 28))
     = Z.lxor (value (gray 32 42)) (value (gray 32 28))
  /\ in_range 32 (value (operator_not 32 (gray 32 42)))
  /\ (forall i, 0 <= i < 32 ->
        Z.testbit (value (operator_not 32 (gray 32 42))) i
        = negb (Z.testbit (value (gray 32 42)) i))
  /\ operator_shr 32 (gray 32 42) 2
     = Some (mk_gray_code (Z.shiftr (value (gray 32 42)) 2))
  /\ operator_shl 32 (gray 32 42) 2
     = Some (mk_gray_code (wrap 32 (Z.shiftl (value (gray 32 42)) 2)))
  /\ (forall n r, operator_shr 32 (gray 32 42) n = Some r ->
        value r = Z.shiftr (value (gray 32 42)) n)
  /\ (forall n r, operator_shl 32 (gray 32 42) n = Some r ->
        value r = wrap 32 (Z.shiftl (value (gray 32 42)) n))
  /\ value (operator_and 32 (gray 32 42) (gray 32 28))
     = Z.land (to_gray 32 42) (to_gray 32 28)
  /\ value (operator_and 32 (gray 32 42) (gray 32 28))
     <> to_gray 32 (Z.land 42 28).
Proof.
  apply (bitwise_on_representations 32 (gray 32 42) (gray 32 28) 2).
  - exact power_of_two_32.
  - apply in_range_dec_true. reflexivity.
  - apply in_range_dec_true. reflexivity.
  - lia.
Defined.

(** ** The lowest set bit *)

(** A positive number is an odd number times a power of two. *)
Lemma odd_decomposition v :
  0 < v -> exists k m, 0 <= k /\ 0 <= m /\ v = 2 ^ k * (2 * m + 1).
Proof.
  intros Hv. destruct v as [|p|p]; try lia.
  induction p as [p _|p IH|].
  - exists 0, (Z.pos p). repeat split; lia.
  - destruct (IH ltac:(lia)) as [k [m [Hk [Hm E]]]].
    exists (Z.succ k), m. repeat split; try lia.
    rewrite Pos2Z.inj_xO, E, Z.pow_succ_r by lia. ring.
  - exists 0, 0. repeat split; lia.
Qed.

Lemma land_odd_neg m : Z.land (2 * m + 1) (- (2 * m + 1)) = 1.
Proof.
  replace (- (2 * m + 1)) with (2 * Z.lnot m + 1) by (unfold Z.lnot; lia).
  apply Z.bits_inj'. intros i Hi. rewrite Z.land_spec.
  destruct (Z.eq_dec i 0) as [->|Hne].
  - rewrite !Z.testbit_odd_0. reflexivity.
  - replace i with (Z.succ (Z.pred i)) by lia.
    rewrite !Z.testbit_odd_succ by lia.
    rewrite (Z.pow2_bits_false 0) by lia.
    rewrite Z.lnot_spec by lia.
    apply andb_negb_r.
Qed.

Lemma lowest_bit_decomposed k m :
  0 <= k -> Z.land (2 ^ k * (2 * m + 1)) (- (2 ^ k * (2 * m + 1))) = 2 ^ k.
Proof.
  intros Hk.
  replace (- (2 ^ k * (2 * m + 1))) with (- (2 * m + 1) * 2 ^ k) by ring.
  rewrite (Z.mul_comm (2 ^ k)).
  rewrite <- !Z.shiftl_mul_pow2 by exact Hk.
  rewrite <- Z.shiftl_land, land_odd_neg.
  rewrite Z.shiftl_mul_pow2 by exact Hk. ring.
Qed.

Lemma lxor_succ_double_2 m : Z.lxor (2 * m + 1) 2 = 2 * Z.lxor m 1 + 1.
Proof.
  apply Z.bits_inj'. intros i Hi. rewrite Z.lxor_spec.
  destruct (Z.eq_dec i 0) as [->|Hne].
  - rewrite !Z.testbit_odd_0. reflexivity.
  - replace i with (Z.succ (Z.pred i)) by lia.
    rewrite !Z.testbit_odd_succ by lia.
    rewrite (Z.testbit_even_succ 1) by lia.
    symmetry. apply Z.lxor_spec.
Qed.

Lemma flip_decomposed k m :
  0 <= k ->
  Z.lxor (2 ^ k * (2 * m + 1)) (2 * 2 ^ k) = 2 ^ k * (2 * Z.lxor m 1 + 1).
Proof.
  intros Hk.
  rewrite !(Z.mul_comm (2 ^ k)), (Z.mul_comm 2 (2 ^ k)), (Z.mul_comm (2 ^ k) 2).
  rewrite <- !Z.shiftl_mul_pow2 by exact Hk.
  rewrite <- Z.shiftl_lxor, lxor_succ_double_2. reflexivity.
Qed.

(** In a [W]-bit value other than [2^(W-1)], the bit left of the lowest
    set bit is below [W]. *)
Lemma left_of_lowest_below W k m :
  0 <= k -> 0 <= m ->
  in_range W (2 ^ k * (2 * m + 1)) ->
  2 ^ k * (2 * m + 1) <> 2 ^ (W - 1) ->
  k + 1 < W.
Proof.
  intros Hk Hm Hr Hne.
  pose proof (in_range_nonneg_width _ _ Hr) as HW.
  destruct Hr as [_ Hlt].
  assert (Hp : 0 < 2 ^ k) by (apply Z.pow_pos_nonneg; lia).
  assert (HkW : k < W).
  { apply (Z.pow_lt_mono_r_iff 2); [lia|exact HW|nia]. }
  destruct (Z.eq_dec k (W - 1)) as [->|Hk1]; [|lia].
  exfalso. apply Hne.
  replace W with (Z.succ (W - 1)) in Hlt at 2 by lia.
  rewrite Z.pow_succ_r in Hlt by exact Hk.
  assert (m = 0) by nia. subst m. ring.
Qed.

Lemma land_neg W v : in_range W v -> Z.land v (neg W v) = Z.land v (- v).
Proof.
  intros Hv. unfold neg. destruct (W <? int_digits); [reflexivity|].
  pose proof (in_range_nonneg_width _ _ Hv) as HW.
  apply Z.bits_inj'. intros i Hi. rewrite !Z.land_spec. unfold wrap.
  destruct (Z_lt_le_dec i W) as [Hlt|Hge].
  - rewrite Z.mod_pow2_bits_low by lia. reflexivity.
  - rewrite (in_range_high_bits W v i Hv Hge). reflexivity.
Qed.

Lemma shl_1 W y :
  1 <= W -> 0 <= y -> 2 * y < 2 ^ W -> shl W y 1 = Some (2 * y).
Proof.
  intros HW Hy Hlt. unfold shl, int_shl.
  change (2 ^ 1) with 2. rewrite (Z.mul_comm y 2).
  destruct (Z.ltb_spec W int_digits) as [Hs|Hs].
  - assert (Hle : 2 ^ W <= 2 ^ (int_digits - 1))
      by (apply Z.pow_le_mono_r; lia).
    unfold int_digits in *.
    replace ((0 <=? y) && (0 <=? 1) && (1 <? 32) && (2 * y <? 2 ^ 32))
      with true.
    + f_equal. unfold to_int, int_digits.
      rewrite Z.mod_small; [lia|].
      change (2 ^ 32) with (2 * 2 ^ (32 - 1)). lia.
    + symmetry. rewrite !andb_true_iff.
      repeat split; try apply Z.leb_le; try apply Z.ltb_lt; lia.
  - unfold int_digits in Hs.
    replace ((0 <=? 1) && (1 <? W)) with true.
    + f_equal. apply wrap_small. unfold in_range. lia.
    + symmetry. rewrite andb_true_iff.
      split; [apply Z.leb_le|apply Z.ltb_lt]; lia.
Qed.

(** The general step of [operator++] and [operator--]: away from the
    pattern [2^(W-1)] it is defined, and flips the bit left of the lowest
    set bit. *)
Lemma flip_left_of_lowest_spec W v :
  in_range W v -> 0 < v -> v <> 2 ^ (W - 1) ->
  flip_left_of_lowest W v
  = Some (mk_gray_code (Z.lxor v (Z.shiftl (Z.land v (- v)) 1)))
  /\ in_range W (Z.lxor v (Z.shiftl (Z.land v (- v)) 1)).
Proof.
  intros Hv Hpos Hne.
  pose proof (in_range_nonneg_width _ _ Hv) as HW.
  unfold flip_left_of_lowest. rewrite (land_neg W v Hv).
  destruct (odd_decomposition v Hpos) as [k [m [Hk [Hm E]]]].
  rewrite E in Hv, Hne |- *. rewrite lowest_bit_decomposed by exact Hk.
  pose proof (left_of_lowest_below W k m Hk Hm Hv Hne) as HkW.
  assert (Hy : 2 * 2 ^ k < 2 ^ W).
  { rewrite <- Z.pow_succ_r by exact Hk. apply Z.pow_lt_mono_r; lia. }
  assert (Hp : 0 < 2 ^ k) by (apply Z.pow_pos_nonneg; lia).
  rewrite shl_1 by lia.
  rewrite Z.shiftl_mul_pow2 by lia. change (2 ^ 1) with 2.
  rewrite (Z.mul_comm (2 ^ k) 2).
  assert (Hr : in_range W (Z.lxor (2 ^ k * (2 * m + 1)) (2 * 2 ^ k))).
  { apply lxor_in_range; [exact Hv|]. unfold in_range. lia. }
  rewrite wrap_small by exact Hr. split; [reflexivity|exact Hr].
Qed.

(** Flipping that bit changes neither the lowest set bit nor the fact
    that the value is not zero, and undoes itself. *)
Lemma flip_left_of_lowest_stable v :
  0 < v ->
  let v' := Z.lxor v (Z.shiftl (Z.land v (- v)) 1) in
  0 < v' /\ Z.land v' (- v') = Z.land v (- v)
  /\ Z.lxor v' (Z.shiftl (Z.land v' (- v')) 1) = v.
Proof.
  intros Hpos v'. subst v'.
  destruct (odd_decomposition v Hpos) as [k [m [Hk [Hm E]]]].
  rewrite E. rewrite lowest_bit_decomposed by exact Hk.
  rewrite Z.shiftl_mul_pow2 by lia. change (2 ^ 1) with 2.
  rewrite (Z.mul_comm (2 ^ k) 2), flip_decomposed by exact Hk.
  assert (Hp : 0 < 2 ^ k) by (apply Z.pow_pos_nonneg; lia).
  assert (Hx : 0 <= Z.lxor m 1) by (apply Z.lxor_nonneg; lia).
  rewrite lowest_bit_decomposed by exact Hk.
  repeat split.
  - nia.
  - rewrite <- flip_decomposed by exact Hk.
    rewrite Z.lxor_assoc, Z.lxor_nilpotent, Z.lxor_0_r. reflexivity.
Qed.

Lemma odd_popcount_flip v j :
  0 <= v -> 0 <= j ->
  Nat.odd (popcount (Z.lxor v (2 ^ j))) = negb (Nat.odd (popcount v)).
Proof.
  intros Hv Hj.
  rewrite odd_popcount_lxor by (try apply Z.pow_nonneg; lia).
  rewrite popcount_pow2 by exact Hj.
  destruct (Nat.odd (popcount v)); reflexivity.
Qed.

Lemma odd_popcount_flip_left v :
  0 < v ->
  Nat.odd (popcount (Z.lxor v (Z.shiftl (Z.land v (- v)) 1)))
  = negb (Nat.odd (popcount v)).
Proof.
  intros Hpos.
  destruct (odd_decomposition v Hpos) as [k [m [Hk [Hm E]]]].
  rewrite E at 2 3. rewrite lowest_bit_decomposed by exact Hk.
  rewrite Z.shiftl_mul_pow2 by lia.
  rewrite <- Z.pow_add_r by lia.
  apply odd_popcount_flip; lia.
Qed.

(** ** The most significant bit *)

Lemma msb_supported W :
  1 <= W <= int_digits -> msb W = Some (2 ^ (W - 1)).
Proof.
  intros HW. unfold msb, int_shl.
  assert (Hlt : 2 ^ (W - 1) < 2 ^ int_digits)
    by (apply Z.pow_lt_mono_r; lia).
  replace ((0 <=? 1) && (0 <=? W - 1) && (W - 1 <? int_digits)
           && (1 * 2 ^ (W - 1) <? 2 ^ int_digits)) with true.
  - rewrite Z.mul_1_l. simpl option_map. f_equal.
    rewrite wrap_to_int by lia. apply wrap_small. split.
    + apply Z.pow_nonneg. lia.
    + apply Z.pow_lt_mono_r; lia.
  - symmetry. rewrite !andb_true_iff.
    repeat split; try apply Z.leb_le; try apply Z.ltb_lt; lia.
Qed.

(** Beyond the width of [int], the shift that initialises [msb] is
    undefined. *)
Lemma msb_wide W : int_digits < W -> msb W = None.
Proof.
  intros HW. unfold msb, int_shl.
  replace (W - 1 <? int_digits) with false
    by (symmetry; apply Z.ltb_ge; lia).
  rewrite andb_false_r. reflexivity.
Qed.

(** ** Successor and predecessor against the rule of the specification *)

Lemma narrow_parity_supported W tc : narrow W -> parity_supported tc W.
Proof. intros [_ H]. destruct tc; simpl; [exact H|exact I]. Qed.

Lemma narrow_msb W : narrow W -> msb W = Some (2 ^ (W - 1)).
Proof.
  intros [HW Hle]. apply msb_supported.
  pose proof (power_of_two_pos W HW). lia.
Qed.

Lemma odd_bits_pos v : 0 <= v -> odd_bits v = true -> 0 < v.
Proof.
  intros Hv Ho. destruct (Z.eq_dec v 0) as [->|Hne]; [discriminate|lia].
Qed.

Lemma lxor_1_in_range W v : 1 <= W -> in_range W v -> in_range W (Z.lxor v 1).
Proof.
  intros HW Hv. apply lxor_in_range; [exact Hv|].
  split; [lia|]. change 1 with (2 ^ 0) at 1. apply Z.pow_lt_mono_r; lia.
Qed.

Lemma msb_pattern_in_range W : 1 <= W -> in_range W (2 ^ (W - 1)).
Proof.
  intros HW. split; [apply Z.pow_nonneg; lia|apply Z.pow_lt_mono_r; lia].
Qed.

(** On the narrow widths [operator++] refines the successor rule. *)
Lemma operator_inc_refines W tc g :
  narrow W -> in_range W (value g) ->
  operator_inc W tc g = Some (mk_gray_code (spec_successor W (value g)))
  /\ in_range W (spec_successor W (value g)).
Proof.
  intros HN Hg. pose proof HN as [HW Hle].
  pose proof (power_of_two_pos W HW) as Hpos.
  unfold operator_inc, spec_successor.
  rewrite (narrow_msb W HN). unfold operator_inc_body.
  rewrite (is_odd_popcount W tc g HW (narrow_parity_supported W tc HN) Hg).
  fold (odd_bits (value g)).
  destruct (odd_bits (value g)) eqn:Ho.
  - destruct (Z.eqb_spec (value g) (2 ^ (W - 1))) as [E|Hne].
    + split; [reflexivity|]. split; [lia|apply Z.pow_pos_nonneg; lia].
    + apply flip_left_of_lowest_spec; [exact Hg| |exact Hne].
      apply odd_bits_pos; [apply Hg|exact Ho].
  - pose proof (lxor_1_in_range W (value g) ltac:(lia) Hg) as Hr.
    rewrite wrap_small by exact Hr. split; [reflexivity|exact Hr].
Qed.

(** On the narrow widths [operator--] refines the predecessor rule. *)
Lemma operator_dec_refines W tc g :
  narrow W -> in_range W (value g) ->
  operator_dec W tc g = Some (mk_gray_code (spec_predecessor W (value g)))
  /\ in_range W (spec_predecessor W (value g)).
Proof.
  intros HN Hg. pose proof HN as [HW Hle].
  pose proof (power_of_two_pos W HW) as Hpos.
  unfold operator_dec, spec_predecessor.
  rewrite (narrow_msb W HN). unfold operator_dec_body.
  rewrite (is_odd_popcount W tc g HW (narrow_parity_supported W tc HN) Hg).
  fold (odd_bits (value g)).
  destruct (odd_bits (value g)) eqn:Ho.
  - pose proof (lxor_1_in_range W (value g) ltac:(lia) Hg) as Hr.
    rewrite wrap_small by exact Hr. split; [reflexivity|exact Hr].
  - destruct (Z.eqb_spec (value g) 0) as [E|Hne].
    + split; [reflexivity|]. apply msb_pattern_in_range. lia.
    + apply flip_left_of_lowest_spec; [exact Hg|destruct Hg; lia|].
      intros E. rewrite E in Ho. unfold odd_bits in Ho.
      rewrite popcount_pow2 in Ho by lia. discriminate.
Qed.

Lemma odd_bits_lxor_1 v : 0 <= v -> odd_bits (Z.lxor v 1) = negb (odd_bits v).
Proof. intros Hv. apply (odd_popcount_flip v 0); lia. Qed.

Lemma lxor_1_twice v : Z.lxor (Z.lxor v 1) 1 = v.
Proof. rewrite Z.lxor_assoc, Z.lxor_nilpotent. apply Z.lxor_0_r. Qed.

(** The predecessor rule undoes the successor rule, at every pattern. *)
Lemma spec_predecessor_successor W v :
  1 <= W -> in_range W v -> spec_predecessor W (spec_successor W v) = v.
Proof.
  intros HW Hv. unfold spec_successor.
  destruct (odd_bits v) eqn:Ho.
  - destruct (Z.eqb_spec v (2 ^ (W - 1))) as [E|Hne].
    + unfold spec_predecessor. simpl. symmetry. exact E.
    + assert (Hpos : 0 < v) by (apply odd_bits_pos; [apply Hv|exact Ho]).
      destruct (flip_left_of_lowest_stable v Hpos) as [Hpos' [_ Hback]].
      fold (flip_left v) in Hpos', Hback. fold (flip_left (flip_left v)) in Hback.
      unfold spec_predecessor.
      replace (odd_bits (flip_left v)) with false.
      * destruct (Z.eqb_spec (flip_left v) 0) as [E0|_]; [lia|exact Hback].
      * unfold odd_bits, flip_left. rewrite odd_popcount_flip_left by exact Hpos.
        unfold odd_bits in Ho. rewrite Ho. reflexivity.
  - unfold spec_predecessor.
    rewrite odd_bits_lxor_1, Ho by apply Hv. simpl.
    apply lxor_1_twice.
Qed.

(** The successor rule undoes the predecessor rule, at every pattern. *)
Lemma spec_successor_predecessor W v :
  1 <= W -> in_range W v -> spec_successor W (spec_predecessor W v) = v.
Proof.
  intros HW Hv. unfold spec_predecessor.
  destruct (odd_bits v) eqn:Ho.
  - unfold spec_successor.
    rewrite odd_bits_lxor_1, Ho by apply Hv. simpl.
    apply lxor_1_twice.
  - destruct (Z.eqb_spec v 0) as [E|Hne].
    + unfold spec_successor, odd_bits.
      rewrite popcount_pow2 by lia. simpl.
      rewrite Z.eqb_refl. symmetry. exact E.
    + assert (Hpos : 0 < v) by (destruct Hv; lia).
      destruct (flip_left_of_lowest_stable v Hpos) as [Hpos' [_ Hback]].
      fold (flip_left v) in Hpos', Hback. fold (flip_left (flip_left v)) in Hback.
      unfold spec_successor.
      replace (odd_bits (flip_left v)) with true.
      * destruct (Z.eqb_spec (flip_left v) (2 ^ (W - 1))) as [E1|_];
          [|exact Hback].
        exfalso. rewrite <- Hback in Hv. unfold flip_left in Hv at 1.
        rewrite E1 in Hv.
        replace (2 ^ (W - 1)) with (2 ^ (W - 1) * (2 * 0 + 1)) in Hv by ring.
        rewrite lowest_bit_decomposed in Hv by lia.
        replace (2 ^ (W - 1) * (2 * 0 + 1)) with (2 ^ (W - 1)) in Hv by ring.
        rewrite Z.shiftl_mul_pow2 in Hv by lia.
        rewrite <- Z.pow_add_r in Hv by lia.
        replace (W - 1 + 1) with W in Hv by lia.
        pose proof (in_range_high_bits W _ W Hv ltac:(lia)) as Hb.
        rewrite Z.lxor_spec, !Z.pow2_bits_eqb in Hb by lia.
        rewrite Z.eqb_refl in Hb.
        replace (W - 1 =? W) with false in Hb
          by (symmetry; apply Z.eqb_neq; lia).
        discriminate.
      * unfold odd_bits, flip_left. rewrite odd_popcount_flip_left by exact Hpos.
        unfold odd_bits in Ho. rewrite Ho. reflexivity.
Qed.

(** On the narrow widths, [--] undoes [++] and [++] undoes [--]. *)
Lemma operator_dec_inc_narrow W tc g :
  narrow W -> in_range W (value g) ->
  exists g', operator_inc W tc g = Some g'
             /\ operator_dec W tc g' = Some (mk_gray_code (value g)).
Proof.
  intros HN Hg. pose proof HN as [HW _].
  pose proof (power_of_two_pos W HW) as Hpos.
  destruct (operator_inc_refines W tc g HN Hg) as [Hinc Hr].
  exists (mk_gray_code (spec_successor W (value g))). split; [exact Hinc|].
  destruct (operator_dec_refines W tc
              (mk_gray_code (spec_successor W (value g))) HN Hr) as [Hdec _].
  rewrite Hdec. simpl value.
  rewrite spec_predecessor_successor by (lia || exact Hg). reflexivity.
Qed.

Lemma operator_inc_dec_narrow W tc g :
  narrow W -> in_range W (value g) ->
  exists g', operator_dec W tc g = Some g'
             /\ operator_inc W tc g' = Some (mk_gray_code (value g)).
Proof.
  intros HN Hg. pose proof HN as [HW _].
  pose proof (power_of_two_pos W HW) as Hpos.
  destruct (operator_dec_refines W tc g HN Hg) as [Hdec Hr].
  exists (mk_gray_code (spec_predecessor W (value g))). split; [exact Hdec|].
  destruct (operator_inc_refines W tc
              (mk_gray_code (spec_predecessor W (value g))) HN Hr) as [Hinc _].
  rewrite Hinc. simpl value.
  rewrite spec_successor_predecessor by (lia || exact Hg). reflexivity.
Qed.

(** ** Wrap-around *)

Lemma to_gray_max W : 1 <= W -> to_gray W (2 ^ W - 1) = 2 ^ (W - 1).
Proof.
  intros HW.
  assert (Hr : in_range W (2 ^ W - 1)).
  { assert (0 < 2 ^ W) by (apply Z.pow_pos_nonneg; lia). unfold in_range. lia. }
  rewrite to_gray_xor_shift by exact Hr. unfold xor_shift.
  replace (2 ^ W - 1) with (Z.ones W) by (rewrite Z.ones_equiv; lia).
  apply Z.bits_inj'. intros i Hi.
  rewrite Z.lxor_spec, Z.shiftr_spec by exact Hi.
  rewrite !Z.testbit_ones_nonneg, Z.pow2_bits_eqb by lia.
  destruct (Z.ltb_spec i W), (Z.ltb_spec (i + 1) W), (Z.eqb_spec (W - 1) i);
    try reflexivity; lia.
Qed.

Lemma from_gray_max W :
  power_of_two W -> from_gray W (2 ^ (W - 1)) = 2 ^ W - 1.
Proof.
  intros HW. pose proof (power_of_two_pos W HW) as Hpos.
  rewrite <- to_gray_max by lia.
  apply from_gray_to_gray; [exact HW|].
  assert (0 < 2 ^ W) by (apply Z.pow_pos_nonneg; lia). unfold in_range. lia.
Qed.

Lemma from_gray_zero W : power_of_two W -> from_gray W 0 = 0.
Proof.
  intros HW. pose proof (power_of_two_pos W HW) as Hpos.
  assert (Hr : in_range W 0)
    by (split; [lia|apply Z.pow_pos_nonneg; lia]).
  rewrite <- (from_gray_to_gray W 0 HW Hr) at 2.
  rewrite (to_gray_xor_shift W 0 Hr). reflexivity.
Qed.

(** On the narrow widths the increment of the code of [2^W - 1] is the
    code of [0], and the decrement of the code of [0] is the code of
    [2^W - 1]. *)
Lemma wraparound_narrow W tc :
  narrow W ->
  value (gray W (2 ^ W - 1)) = 2 ^ (W - 1)
  /\ operator_inc W tc (gray W (2 ^ W - 1)) = Some (mk_gray_code 0)
  /\ operator_value_type W (mk_gray_code 0) = 0
  /\ operator_dec W tc (mk_gray_code 0) = Some (mk_gray_code (2 ^ (W - 1)))
  /\ operator_value_type W (mk_gray_code (2 ^ (W - 1))) = 2 ^ W - 1.
Proof.
  intros HN. pose proof HN as [HW Hle].
  pose proof (power_of_two_pos W HW) as Hpos.
  assert (Emax : value (gray W (2 ^ W - 1)) = 2 ^ (W - 1))
    by (rewrite gray_to_gray; apply to_gray_max; lia).
  assert (Hmsb : in_range W (2 ^ (W - 1))) by (apply msb_pattern_in_range; lia).
  assert (H0 : in_range W 0) by (split; [lia|apply Z.pow_pos_nonneg; lia]).
  repeat split.
  - exact Emax.
  - destruct (operator_inc_refines W tc (gray W (2 ^ W - 1)) HN) as [-> _];
      [rewrite Emax; exact Hmsb|].
    rewrite Emax. unfold spec_successor, odd_bits.
    rewrite popcount_pow2 by lia. simpl. rewrite Z.eqb_refl. reflexivity.
  - apply from_gray_zero. exact HW.
  - destruct (operator_dec_refines W tc (mk_gray_code 0) HN H0) as [-> _].
    reflexivity.
  - apply from_gray_max. exact HW.
Qed.

(** On the narrow widths, the branches of [++] and [--] are chosen by
    the parity of the represented value. *)
Lemma increment_rule_narrow W tc g :
  narrow W -> in_range W (value g) ->
  (Z.even (operator_value_type W g) = true ->
   operator_inc W tc g = Some (mk_gray_code (Z.lxor (value g) 1)))
  /\ (Z.odd (operator_value_type W g) = true -> value g <> 2 ^ (W - 1) ->
      operator_inc W tc g
      = Some (mk_gray_code
                (Z.lxor (value g)
                   (Z.shiftl (Z.land (value g) (- value g)) 1))))
  /\ (Z.odd (operator_value_type W g) = true ->
      operator_dec W tc g = Some (mk_gray_code (Z.lxor (value g) 1)))
  /\ (Z.even (operator_value_type W g) = true -> value g <> 0 ->
      operator_dec W tc g
      = Some (mk_gray_code
                (Z.lxor (value g)
                   (Z.shiftl (Z.land (value g) (- value g)) 1)))).
Proof.
  intros HN Hg. pose proof HN as [HW _].
  destruct (operator_inc_refines W tc g HN Hg) as [-> _].
  destruct (operator_dec_refines W tc g HN Hg) as [-> _].
  unfold spec_successor, spec_predecessor, odd_bits, flip_left.
  rewrite (odd_popcount_from_gray W (value g) HW Hg).
  rewrite operator_value_type_from_gray, <- Z.negb_odd.
  destruct (Z.odd (from_gray W (value g))); simpl; repeat split;
    try discriminate; try reflexivity.
  - intros _ Hne. destruct (Z.eqb_spec (value g) (2 ^ (W - 1))); [contradiction|].
    reflexivity.
  - intros _ Hne. destruct (Z.eqb_spec (value g) 0); [contradiction|].
    reflexivity.
Qed.

Lemma narrow_8 : narrow 8.
Proof. split; [exact power_of_two_8|unfold int_digits; lia]. Qed.

Lemma narrow_16 : narrow 16.
Proof. split; [exact power_of_two_16|unfold int_digits; lia]. Qed.

Lemma narrow_32 : narrow 32.
Proof. split; [exact power_of_two_32|unfold int_digits; lia]. Qed.

(** ** [gray_code<unsigned long long>]: a 64-bit [value_type] *)

Lemma in_range_64_max : in_range 64 (2 ^ 64 - 1).
Proof. apply in_range_dec_true. reflexivity. Qed.

Lemma operator_inc_64 tc g : operator_inc 64 tc g = None.
Proof. unfold operator_inc. rewrite msb_wide; [reflexivity|]. reflexivity. Qed.

Lemma operator_dec_64 tc g : operator_dec 64 tc g = None.
Proof. unfold operator_dec. rewrite msb_wide; [reflexivity|]. reflexivity. Qed.

(** On the narrow widths the two branches of [is_odd] agree with each
    other and with the parity of the population count. *)
Lemma parity_branches_agree_narrow W g :
  narrow W -> in_range W (value g) ->
  is_odd W other_compiler g = is_odd W gnuc_or_clang g
  /\ is_odd W gnuc_or_clang g = Nat.odd (popcount (value g)).
Proof.
  intros HN Hg. pose proof HN as [HW _].
  rewrite !is_odd_popcount
    by (assumption || apply narrow_parity_supported; assumption).
  split; reflexivity.
Qed.

(** The portable branch is the parity of the population count on every
    power-of-two width. *)
Lemma is_odd_portable_popcount W g :
  power_of_two W -> in_range W (value g) ->
  is_odd W other_compiler g = Nat.odd (popcount (value g)).
Proof. intros HW Hg. apply is_odd_popcount; [exact HW|exact I|exact Hg]. Qed.

Lemma is_even_negates W tc g : is_even W tc g = negb (is_odd W tc g).
Proof. reflexivity. Qed.

(** C4, at [gray_code<unsigned long long>] built with the intrinsic
    branch: [x = 2^32] is even and its representation [2^32 + 2^31] has
    two bits set, yet [is_odd] answers [true] and [is_even] answers
    [false]: [__builtin_parity] receives the low 32 bits only.  The
    portable branch answers [false] on the same code. *)
Theorem is_odd_intrinsic_64 :
  in_range 64 (2 ^ 32)
  /\ Z.odd (2 ^ 32) = false
  /\ value (gray 64 (2 ^ 32)) = 2 ^ 32 + 2 ^ 31
  /\ popcount (value (gray 64 (2 ^ 32))) = 2%nat
  /\ is_odd 64 gnuc_or_clang (gray 64 (2 ^ 32)) = true
  /\ is_even 64 gnuc_or_clang (gray 64 (2 ^ 32)) = false
  /\ is_odd 64 other_compiler (gray 64 (2 ^ 32)) = false.
Proof.
  split; [apply in_range_dec_true; reflexivity|].
  repeat split.
Qed.

(** C6, at the 64-bit representation [2^32]: one bit is set, the portable
    fold answers [true], the intrinsic branch answers [false]. *)
Theorem parity_branches_differ_64 :
  in_range 64 (2 ^ 32)
  /\ popcount (2 ^ 32) = 1%nat
  /\ is_odd 64 other_compiler (mk_gray_code (2 ^ 32)) = true
  /\ is_odd 64 gnuc_or_clang (mk_gray_code (2 ^ 32)) = false.
Proof.
  split; [apply in_range_dec_true; reflexivity|].
  repeat split.
Qed.

(** C2, at [gray_code<unsigned long long>]: the code of [2^64 - 1] has
    the single bit [2^63] set, but the constant [msb] of [operator++] and
    [operator--] is the [int] shift [1 << 63], which has no value: neither
    the increment of that code nor the decrement of the code of [0] is
    defined.  Were [msb] the pattern [2^63], the intrinsic branch of
    [is_odd] would still see the code of [2^64 - 1], of population count
    1, as even, and [++] would turn it into [2^63 + 1] instead of [0]. *)
Theorem wraparound_64 :
  value (gray 64 (2 ^ 64 - 1)) = 2 ^ 63
  /\ int_shl 1 (64 - 1) = None
  /\ msb 64 = None
  /\ (forall tc, operator_inc 64 tc (gray 64 (2 ^ 64 - 1)) = None)
  /\ (forall tc, operator_dec 64 tc (gray 64 0) = None)
  /\ is_odd 64 gnuc_or_clang (gray 64 (2 ^ 64 - 1)) = false
  /\ operator_inc_body 64 (2 ^ 63) gnuc_or_clang (gray 64 (2 ^ 64 - 1))
     = Some (mk_gray_code (2 ^ 63 + 1)).
Proof.
  repeat split; intros; (apply operator_inc_64 || apply operator_dec_64).
Qed.

(** C3, at [gray_code<unsigned long long>]: the code of [2] (even,
    representation 3) and the code of [1] (odd, representation 1) are not
    boundary patterns; the rule asks for the representations [3 ^ 1] and
    [1 ^ (1 << 1)] after [++], and for [1 ^ 1] and [3 ^ (1 << 1)] after
    [--]; the operators give no result.  Were [msb] the pattern [2^63],
    the intrinsic branch of [is_odd] would still take the code of the
    even value [2^32] for an odd one: [++] would flip the bit left of its
    lowest set bit, not bit 0. *)
Theorem increment_rule_64 :
  value (gray 64 2) = 3 /\ value (gray 64 1) = 1
  /\ operator_value_type 64 (gray 64 2) = 2
  /\ operator_value_type 64 (gray 64 1) = 1
  /\ spec_successor 64 3 = Z.lxor 3 1
  /\ spec_successor 64 1 = Z.lxor 1 (Z.shiftl (Z.land 1 (- (1))) 1)
  /\ (forall tc, operator_inc 64 tc (gray 64 2) = None)
  /\ (forall tc, operator_inc 64 tc (gray 64 1) = None)
  /\ (forall tc, operator_dec 64 tc (gray 64 1) = None)
  /\ (forall tc, operator_dec 64 tc (gray 64 2) = None)
  /\ Z.even (operator_value_type 64 (gray 64 (2 ^ 32))) = true
  /\ value (gray 64 (2 ^ 32)) = 2 ^ 32 + 2 ^ 31
  /\ operator_inc_body 64 (2 ^ 63) gnuc_or_clang (gray 64 (2 ^ 32))
     = Some (mk_gray_code (2 ^ 31))
  /\ Z.lxor (2 ^ 32 + 2 ^ 31) 1 <> 2 ^ 31.
Proof.
  repeat split; intros;
    try (apply operator_inc_64 || apply operator_dec_64).
  vm_compute. discriminate.
Qed.

(** C5, at [gray_code<unsigned long long>]: the code of [5] is not the
    maximum pattern, and [++] gives no value that [--] could bring
    back.  Were [msb] the pattern [2^63], with the intrinsic branch of
    [is_odd] the code of [2^32 - 1], representation [2^31], would be
    incremented to [2^32 + 2^31] and then decremented to
    [2^32 + 2^31 + 1]. *)
Theorem decrement_after_increment_64 :
  value (gray 64 5) = 7 /\ value (gray 64 5) <> 2 ^ 63
  /\ (forall tc g', operator_inc 64 tc (gray 64 5) <> Some g')
  /\ value (gray 64 (2 ^ 32 - 1)) = 2 ^ 31
  /\ operator_inc_body 64 (2 ^ 63) gnuc_or_clang (gray 64 (2 ^ 32 - 1))
     = Some (mk_gray_code (2 ^ 32 + 2 ^ 31))
  /\ operator_dec_body 64 (2 ^ 63) gnuc_or_clang
       (mk_gray_code (2 ^ 32 + 2 ^ 31))
     = Some (mk_gray_code (2 ^ 32 + 2 ^ 31 + 1)).
Proof.
  split; [reflexivity|]. split; [discriminate|]. split.
  - intros tc g'. rewrite operator_inc_64. discriminate.
  - repeat split.
Qed.

(** ** What the successor rule computes

    On representations, the rule is the conversion of the next binary
    value: the operators count modulo [2^W]. *)

Lemma xor_shift_1_succ x :
  xor_shift 1 (x + 1) = Z.lxor (xor_shift 1 x) (gray_step x).
Proof.
  unfold gray_step.
  rewrite <- Z.lxor_assoc, Z.lxor_nilpotent, Z.lxor_0_l. reflexivity.
Qed.

Lemma xor_shift_1_succ_double q :
  xor_shift 1 (2 * q + 1) = 2 * xor_shift 1 q + Z.b2z (Z.even q).
Proof.
  unfold xor_shift. rewrite shiftr_1_succ_double.
  apply Z.bits_inj'. intros i Hi.
  destruct (Z.eq_dec i 0) as [->|Hne].
  - rewrite Z.testbit_0_r, Z.lxor_spec, Z.testbit_odd_0, Z.bit0_odd.
    rewrite <- Z.negb_odd. reflexivity.
  - replace i with (Z.succ (Z.pred i)) by lia.
    rewrite Z.testbit_succ_r by lia.
    rewrite !Z.lxor_spec, Z.testbit_odd_succ by lia.
    rewrite testbit_succ_shiftr by lia. reflexivity.
Qed.

Lemma land_double_neg a : Z.land (2 * a) (- (2 * a)) = 2 * Z.land a (- a).
Proof.
  replace (- (2 * a)) with (- a * 2 ^ 1) by (change (2 ^ 1) with 2; ring).
  replace (2 * a) with (a * 2 ^ 1) by (change (2 ^ 1) with 2; ring).
  rewrite <- !Z.shiftl_mul_pow2 by lia.
  rewrite <- Z.shiftl_land, Z.shiftl_mul_pow2 by lia.
  change (2 ^ 1) with 2. ring.
Qed.

(** For an odd [x], the codes of [x] and [x + 1] differ in the bit left
    of the lowest set bit of the code of [x]. *)
Lemma gray_step_lowest x :
  0 <= x -> Z.odd x = true ->
  gray_step x = 2 * Z.land (xor_shift 1 x) (- xor_shift 1 x).
Proof.
  intros Hx. destruct x as [|p|p]; [discriminate| |lia].
  induction p as [p IH|p _|]; intros Ho.
  - rewrite Pos2Z.inj_xI, gray_step_odd, xor_shift_1_succ_double.
    destruct (Z.odd (Z.pos p)) eqn:Hp.
    + rewrite <- Z.negb_odd, Hp. simpl Z.b2z. rewrite Z.add_0_r.
      rewrite land_double_neg. rewrite IH by (lia || reflexivity).
      reflexivity.
    + rewrite <- Z.negb_odd, Hp. simpl Z.b2z.
      rewrite land_odd_neg.
      rewrite (Z.div2_odd (Z.pos p)), Hp. simpl Z.b2z. rewrite Z.add_0_r.
      rewrite gray_step_even. reflexivity.
  - discriminate.
  - reflexivity.
Qed.

Lemma even_succ_in_range W x :
  1 <= W -> in_range W x -> Z.odd x = false -> in_range W (x + 1).
Proof.
  intros HW [H0 H1] Ho. split; [lia|].
  assert (E2 : 2 ^ W = 2 * 2 ^ (W - 1)).
  { rewrite <- Z.pow_succ_r by lia. f_equal. lia. }
  pose proof (Z.div2_odd x) as E. rewrite Ho in E. simpl Z.b2z in E.
  lia.
Qed.

(** The successor rule, applied to the code of [x], gives the code of
    [x + 1] modulo [2^W]. *)
Lemma spec_successor_to_gray W x :
  power_of_two W -> in_range W x ->
  spec_successor W (to_gray W x) = to_gray W ((x + 1) mod 2 ^ W).
Proof.
  intros HW Hx. pose proof (power_of_two_pos W HW) as Hpos.
  assert (H2W : 0 < 2 ^ W) by (apply Z.pow_pos_nonneg; lia).
  unfold spec_successor, odd_bits.
  rewrite (odd_popcount_to_gray W x Hx).
  destruct (Z.odd x) eqn:Ho.
  - destruct (Z.eq_dec x (2 ^ W - 1)) as [->|Hne].
    + rewrite to_gray_max by lia. rewrite Z.eqb_refl.
      replace (2 ^ W - 1 + 1) with (2 ^ W) by lia.
      rewrite Z.mod_same by lia. reflexivity.
    + assert (Hmaxr : in_range W (2 ^ W - 1)) by (unfold in_range; lia).
      destruct (Z.eqb_spec (to_gray W x) (2 ^ (W - 1))) as [E|_].
      * exfalso. apply Hne. rewrite <- to_gray_max in E by lia.
        apply (to_gray_injective W); assumption.
      * assert (Hr1 : in_range W (x + 1)) by (unfold in_range in *; lia).
        rewrite Z.mod_small by exact Hr1.
        rewrite !to_gray_xor_shift by assumption.
        rewrite xor_shift_1_succ, gray_step_lowest by (apply Hx || exact Ho).
        unfold flip_left. rewrite Z.shiftl_mul_pow2 by lia.
        change (2 ^ 1) with 2. rewrite (Z.mul_comm _ 2). reflexivity.
  - pose proof (even_succ_in_range W x ltac:(lia) Hx Ho) as Hr1.
    rewrite Z.mod_small by exact Hr1.
    rewrite !to_gray_xor_shift by assumption.
    rewrite xor_shift_1_succ.
    rewrite (Z.div2_odd x) at 3. rewrite Ho. simpl Z.b2z. rewrite Z.add_0_r.
    rewrite gray_step_even. reflexivity.
Qed.

(** On the narrow widths [++] adds one to the represented value, modulo
    [2^W]. *)
Lemma operator_inc_value W tc g :
  narrow W -> in_range W (value g) ->
  exists g', operator_inc W tc g = Some g'
             /\ operator_value_type W g'
                = (operator_value_type W g + 1) mod 2 ^ W.
Proof.
  intros HN Hg. pose proof HN as [HW _].
  pose proof (power_of_two_pos W HW) as Hpos.
  destruct (operator_inc_refines W tc g HN Hg) as [Hinc _].
  exists (mk_gray_code (spec_successor W (value g))). split; [exact Hinc|].
  rewrite !operator_value_type_from_gray. simpl value.
  rewrite <- (to_gray_from_gray W (value g) HW Hg) at 1.
  rewrite spec_successor_to_gray
    by (try apply from_gray_in_range; assumption).
  apply from_gray_to_gray; [exact HW|].
  apply Z.mod_pos_bound. apply Z.pow_pos_nonneg; lia.
Qed.

(** On the narrow widths [--] subtracts one from the represented value,
    modulo [2^W]. *)
Lemma operator_dec_value W tc g :
  narrow W -> in_range W (value g) ->
  exists g', operator_dec W tc g = Some g'
             /\ operator_value_type W g'
                = (operator_value_type W g - 1) mod 2 ^ W.
Proof.
  intros HN Hg. pose proof HN as [HW _].
  pose proof (power_of_two_pos W HW) as Hpos.
  assert (H2W : 0 < 2 ^ W) by (apply Z.pow_pos_nonneg; lia).
  destruct (operator_dec_refines W tc g HN Hg) as [Hdec _].
  exists (mk_gray_code (spec_predecessor W (value g))). split; [exact Hdec|].
  rewrite !operator_value_type_from_gray. simpl value.
  set (x := from_gray W (value g)).
  assert (Hx : in_range W x) by (apply from_gray_in_range; exact Hg).
  assert (Hp : in_range W ((x - 1) mod 2 ^ W))
    by (apply Z.mod_pos_bound; exact H2W).
  assert (E : spec_successor W (to_gray W ((x - 1) mod 2 ^ W)) = value g).
  { rewrite spec_successor_to_gray by assumption.
    rewrite Z.add_mod_idemp_l by lia.
    replace (x - 1 + 1) with x by lia.
    rewrite Z.mod_small by exact Hx.
    apply to_gray_from_gray; assumption. }
  rewrite <- E.
  rewrite spec_predecessor_successor
    by (try apply to_gray_in_range; (lia || assumption)).
  apply from_gray_to_gray; assumption.
Qed.

(** The power-of-two hypothesis of the round trip is needed: on a 6-bit
    word the loop shifts by 3 and by 1 only. *)
Example round_trip_width_6 : from_gray 6 (to_gray 6 4) = 5.
Proof. reflexivity. Qed.

(** * Further properties of the library *)

(** ** Shared lemmas *)

Lemma from_gray_injective W a b :
  power_of_two W -> in_range W a -> in_range W b ->
  from_gray W a = from_gray W b -> a = b.
Proof.
  intros HW Ha Hb E.
  rewrite <- (to_gray_from_gray W a HW Ha), <- (to_gray_from_gray W b HW Hb).
  rewrite E. reflexivity.
Qed.

Lemma xor_shift_lxor s x y :
  xor_shift s (Z.lxor x y) = Z.lxor (xor_shift s x) (xor_shift s y).
Proof.
  unfold xor_shift. rewrite Z.shiftr_lxor.
  rewrite !Z.lxor_assoc. f_equal.
  rewrite <- !Z.lxor_assoc. rewrite (Z.lxor_comm y). reflexivity.
Qed.

Lemma to_gray_lxor W x y :
  in_range W x -> in_range W y ->
  to_gray W (Z.lxor x y) = Z.lxor (to_gray W x) (to_gray W y).
Proof.
  intros Hx Hy.
  rewrite !to_gray_xor_shift by (try apply lxor_in_range; assumption).
  apply xor_shift_lxor.
Qed.

Lemma from_gray_lxor W a b :
  power_of_two W -> in_range W a -> in_range W b ->
  from_gray W (Z.lxor a b) = Z.lxor (from_gray W a) (from_gray W b).
Proof.
  intros HW Ha Hb.
  pose proof (from_gray_in_range W a Ha) as Hfa.
  pose proof (from_gray_in_range W b Hb) as Hfb.
  rewrite <- (to_gray_from_gray W a HW Ha) at 1.
  rewrite <- (to_gray_from_gray W b HW Hb) at 1.
  rewrite <- to_gray_lxor by assumption.
  apply from_gray_to_gray; [exact HW|].
  apply lxor_in_range; assumption.
Qed.

Lemma xor_shift_shiftr s k x :
  0 <= s -> 0 <= k ->
  xor_shift s (Z.shiftr x k) = Z.shiftr (xor_shift s x) k.
Proof.
  intros Hs Hk. unfold xor_shift.
  rewrite Z.shiftr_lxor, !Z.shiftr_shiftr by assumption.
  rewrite (Z.add_comm k s). reflexivity.
Qed.

Lemma to_gray_shiftr W x k :
  in_range W x -> 0 <= k ->
  to_gray W (Z.shiftr x k) = Z.shiftr (to_gray W x) k.
Proof.
  intros Hx Hk.
  rewrite !to_gray_xor_shift by (try apply shiftr_in_range; assumption).
  apply xor_shift_shiftr; lia.
Qed.

Lemma from_gray_shiftr W v k :
  power_of_two W -> in_range W v -> 0 <= k ->
  from_gray W (Z.shiftr v k) = Z.shiftr (from_gray W v) k.
Proof.
  intros HW Hv Hk.
  pose proof (from_gray_in_range W v Hv) as Hf.
  rewrite <- (to_gray_from_gray W v HW Hv) at 1.
  rewrite <- to_gray_shiftr by assumption.
  apply from_gray_to_gray; [exact HW|].
  apply shiftr_in_range; assumption.
Qed.

Lemma in_range_1 W : 1 <= W -> in_range W 1.
Proof.
  intros HW. split; [lia|].
  change 1 with (2 ^ 0) at 1. apply Z.pow_lt_mono_r; lia.
Qed.

Lemma in_range_0 W : 0 <= W -> in_range W 0.
Proof. intros HW. split; [lia|apply Z.pow_pos_nonneg; lia]. Qed.

Lemma from_gray_one W : power_of_two W -> from_gray W 1 = 1.
Proof.
  intros HW. pose proof (power_of_two_pos W HW) as Hpos.
  pose proof (in_range_1 W ltac:(lia)) as H1.
  rewrite <- (from_gray_to_gray W 1 HW H1) at 2.
  rewrite (to_gray_xor_shift W 1 H1). reflexivity.
Qed.

Lemma gray_code_eta g : mk_gray_code (value g) = g.
Proof. destruct g. reflexivity. Qed.

Lemma gray_in_range W x : 0 <= W -> in_range W (value (gray W x)).
Proof. intros HW. apply wrap_in_range. exact HW. Qed.

Lemma testbit_wrap W x i :
  0 <= W -> 0 <= i ->
  Z.testbit (wrap W x) i = (i <? W) && Z.testbit x i.
Proof.
  intros HW Hi. unfold wrap.
  destruct (Z.ltb_spec i W) as [Hlt|Hge].
  - rewrite Z.mod_pow2_bits_low by lia. reflexivity.
  - rewrite Z.mod_pow2_bits_high by lia. reflexivity.
Qed.

Lemma wrap_lnot W v : in_range W v -> wrap W (Z.lnot v) = 2 ^ W - 1 - v.
Proof.
  intros Hv. unfold wrap, Z.lnot.
  replace (Z.pred (- v)) with (2 ^ W - 1 - v + (-1) * 2 ^ W) by lia.
  rewrite Z_mod_plus_full. apply Z.mod_small.
  unfold in_range in Hv. lia.
Qed.

(** ** Increment and decrement on the narrow widths *)

(** X1. On a power-of-two width up to that of [int], and on both
    branches of [is_odd], [operator++] is defined on every code, keeps
    the representation within [W] bits, and adds one to the represented
    value modulo [2^W]. *)
Theorem increment_adds_one W tc g :
  narrow W -> in_range W (value g) ->
  exists g', operator_inc W tc g = Some g'
             /\ in_range W (value g')
             /\ operator_value_type W g'
                = (operator_value_type W g + 1) mod 2 ^ W.
Proof.
  intros HN Hg.
  destruct (operator_inc_refines W tc g HN Hg) as [Hinc Hr].
  destruct (operator_inc_value W tc g HN Hg) as [g' [Hinc' Hv]].
  exists g'. split; [exact Hinc'|]. split; [|exact Hv].
  rewrite Hinc in Hinc'. injection Hinc' as <-. exact Hr.
Qed.

Lemma increment_adds_one_witness :
  exists g', operator_inc 8 gnuc_or_clang (gray 8 255) = Some g'
             /\ in_range 8 (value g')
             /\ operator_value_type 8 g'
                = (operator_value_type 8 (gray 8 255) + 1) mod 2 ^ 8.
Proof.
  apply (increment_adds_one 8 gnuc_or_clang (gray 8 255)).
  - exact narrow_8.
  - apply in_range_dec_true. reflexivity.
Defined.

(** X2. Under the same conditions [operator--] is defined on every code,
    keeps the representation within [W] bits, and subtracts one from the
    represented value modulo [2^W]. *)
Theorem decrement_subtracts_one W tc g :
  narrow W -> in_range W (value g) ->
  exists g', operator_dec W tc g = Some g'
             /\ in_range W (value g')
             /\ operator_value_type W g'
                = (operator_value_type W g - 1) mod 2 ^ W.
Proof.
  intros HN Hg.
  destruct (operator_dec_refines W tc g HN Hg) as [Hdec Hr].
  destruct (operator_dec_value W tc g HN Hg) as [g' [Hdec' Hv]].
  exists g'. split; [exact Hdec'|]. split; [|exact Hv].
  rewrite Hdec in Hdec'. injection Hdec' as <-. exact Hr.
Qed.

Lemma decrement_subtracts_one_witness :
  exists g', operator_dec 16 other_compiler (gray 16 0) = Some g'
             /\ in_range 16 (value g')
             /\ operator_value_type 16 g'
                = (operator_value_type 16 (gray 16 0) - 1) mod 2 ^ 16.
Proof.
  apply (decrement_subtracts_one 16 other_compiler (gray 16 0)).
  - exact narrow_16.
  - apply in_range_dec_true. reflexivity.
Defined.

(** X3. On the narrow widths [--] undoes [++] and [++] undoes [--], at
    every code, the patterns [2^(W-1)] and [0] included. *)
Theorem increment_decrement_inverse W tc g :
  narrow W -> in_range W (value g) ->
  (exists g', operator_inc W tc g = Some g' /\ operator_dec W tc g' = Some g)
  /\ (exists g', operator_dec W tc g = Some g' /\ operator_inc W tc g' = Some g).
Proof.
  intros HN Hg. split.
  - destruct (operator_dec_inc_narrow W tc g HN Hg) as [g' [H1 H2]].
    exists g'. rewrite gray_code_eta in H2. split; assumption.
  - destruct (operator_inc_dec_narrow W tc g HN Hg) as [g' [H1 H2]].
    exists g'. rewrite gray_code_eta in H2. split; assumption.
Qed.

Lemma increment_decrement_inverse_witness :
  (exists g', operator_inc 32 gnuc_or_clang (gray 32 (2 ^ 32 - 1)) = Some g'
              /\ operator_dec 32 gnuc_or_clang g' = Some (gray 32 (2 ^ 32 - 1)))
  /\ (exists g', operator_dec 32 gnuc_or_clang (gray 32 (2 ^ 32 - 1)) = Some g'
                 /\ operator_inc 32 gnuc_or_clang g'
                    = Some (gray 32 (2 ^ 32 - 1))).
Proof.
  apply (increment_decrement_inverse 32 gnuc_or_clang (gray 32 (2 ^ 32 - 1))).
  - exact narrow_32.
  - apply in_range_dec_true. reflexivity.
Defined.

(** X4. On the narrow widths the postfix forms return the code as it
    was, and leave the object as the prefix forms do: holding the
    represented value plus one, respectively minus one, modulo [2^W]. *)
Theorem postfix_forms W tc g :
  narrow W -> in_range W (value g) ->
  (exists g', operator_inc_post W tc g = Some (g, g')
              /\ operator_inc W tc g = Some g'
              /\ operator_value_type W g'
                 = (operator_value_type W g + 1) mod 2 ^ W)
  /\ (exists g', operator_dec_post W tc g = Some (g, g')
                 /\ operator_dec W tc g = Some g'
                 /\ operator_value_type W g'
                    = (operator_value_type W g - 1) mod 2 ^ W).
Proof.
  intros HN Hg. split.
  - destruct (operator_inc_value W tc g HN Hg) as [g' [H1 H2]].
    exists g'. unfold operator_inc_post. rewrite H1.
    repeat split. exact H2.
  - destruct (operator_dec_value W tc g HN Hg) as [g' [H1 H2]].
    exists g'. unfold operator_dec_post. rewrite H1.
    repeat split. exact H2.
Qed.

Lemma postfix_forms_witness :
  (exists g', operator_inc_post 8 other_compiler (gray 8 5)
              = Some (gray 8 5, g')
              /\ operator_inc 8 other_compiler (gray 8 5) = Some g'
              /\ operator_value_type 8 g'
                 = (operator_value_type 8 (gray 8 5) + 1) mod 2 ^ 8)
  /\ (exists g', operator_dec_post 8 other_compiler (gray 8 5)
                 = Some (gray 8 5, g')
                 /\ operator_dec 8 other_compiler (gray 8 5) = Some g'
                 /\ operator_value_type 8 g'
                    = (operator_value_type 8 (gray 8 5) - 1) mod 2 ^ 8).
Proof.
  apply (postfix_forms 8 other_compiler (gray 8 5)).
  - exact narrow_8.
  - apply in_range_dec_true. reflexivity.
Defined.

(** ** Comparison and conversion *)

(** X5. Two Gray codes of a power-of-two width compare equal with [==]
    exactly when they encode the same binary value (and exactly when
    they are the same code); [!=] holds exactly when the encoded values
    differ. *)
Theorem gray_equality_is_value_equality W a b :
  power_of_two W -> in_range W (value a) -> in_range W (value b) ->
  (operator_eq a b = true
   <-> operator_value_type W a = operator_value_type W b)
  /\ (operator_ne a b = true
      <-> operator_value_type W a <> operator_value_type W b)
  /\ (operator_eq a b = true <-> a = b).
Proof.
  intros HW Ha Hb. unfold operator_eq, operator_ne.
  rewrite !operator_value_type_from_gray.
  assert (Hiff : value a = value b <-> from_gray W (value a) = from_gray W (value b)).
  { split; [intros ->; reflexivity|].
    apply from_gray_injective; assumption. }
  repeat split.
  - intros E. apply Z.eqb_eq in E. apply Hiff. exact E.
  - intros E. apply Z.eqb_eq. apply Hiff. exact E.
  - intros E Hc. apply Hiff in Hc. apply Z.eqb_eq in Hc.
    rewrite Hc in E. discriminate.
  - intros Hne. destruct (Z.eqb_spec (value a) (value b)) as [E|_];
      [|reflexivity].
    exfalso. apply Hne. apply Hiff. exact E.
  - intros E. apply Z.eqb_eq in E. destruct a, b. simpl in E.
    rewrite E. reflexivity.
  - intros ->. apply Z.eqb_refl.
Qed.

Lemma gray_equality_is_value_equality_witness :
  (operator_eq (gray 32 52) (gray 32 89) = true
   <-> operator_value_type 32 (gray 32 52) = operator_value_type 32 (gray 32 89))
  /\ (operator_ne (gray 32 52) (gray 32 89) = true
      <-> operator_value_type 32 (gray 32 52)
          <> operator_value_type 32 (gray 32 89))
  /\ (operator_eq (gray 32 52) (gray 32 89) = true
      <-> gray 32 52 = gray 32 89).
Proof.
  apply (gray_equality_is_value_equality 32 (gray 32 52) (gray 32 89)).
  - exact power_of_two_32.
  - apply in_range_dec_true. reflexivity.
  - apply in_range_dec_true. reflexivity.
Defined.

(** X6. A [bool] is its own Gray code: constructing or assigning from
    [b] gives the code that the constructor from the value 0 or 1 gives,
    it converts back to that value with [operator value_type], and back
    to [b] with [operator bool]. *)
Theorem bool_is_its_own_code W b g :
  power_of_two W ->
  gray_code_of_bool b = gray W (Z.b2z b)
  /\ assign_bool g b = gray W (Z.b2z b)
  /\ operator_value_type W (gray_code_of_bool b) = Z.b2z b
  /\ operator_bool (gray_code_of_bool b) = b.
Proof.
  intros HW. pose proof (power_of_two_pos W HW) as Hpos.
  assert (E : gray_code_of_bool b = gray W (Z.b2z b)).
  { unfold gray_code_of_bool, gray, gray_code_of_value. f_equal.
    destruct b; simpl; symmetry; apply wrap_small;
      [apply in_range_1|apply in_range_0]; lia. }
  repeat split.
  - exact E.
  - exact E.
  - rewrite operator_value_type_from_gray. unfold gray_code_of_bool.
    simpl value. destruct b; simpl Z.b2z;
      [apply from_gray_one|apply from_gray_zero]; exact HW.
  - destruct b; reflexivity.
Qed.

Lemma bool_is_its_own_code_witness :
  gray_code_of_bool true = gray 8 (Z.b2z true)
  /\ assign_bool (gray 8 77) true = gray 8 (Z.b2z true)
  /\ operator_value_type 8 (gray_code_of_bool true) = Z.b2z true
  /\ operator_bool (gray_code_of_bool true) = true.
Proof.
  apply (bool_is_its_own_code 8 true (gray 8 77)). exact power_of_two_8.
Defined.

(** X7. [operator bool] of a Gray code of a power-of-two width is true
    exactly when the binary value it encodes is not zero. *)
Theorem bool_conversion_tests_value W g :
  power_of_two W -> in_range W (value g) ->
  operator_bool g = negb (operator_value_type W g =? 0).
Proof.
  intros HW Hg. pose proof (power_of_two_pos W HW) as Hpos.
  unfold operator_bool, cast_bool. f_equal.
  rewrite operator_value_type_from_gray.
  destruct (Z.eqb_spec (value g) 0) as [E|Hne].
  - rewrite E, from_gray_zero by exact HW. reflexivity.
  - symmetry. apply Z.eqb_neq. intros E. apply Hne.
    rewrite <- (from_gray_zero W HW) in E.
    apply (from_gray_injective W); try assumption.
    apply in_range_0. lia.
Qed.

Lemma bool_conversion_tests_value_witness :
  operator_bool (gray 16 24) = negb (operator_value_type 16 (gray 16 24) =? 0).
Proof.
  apply (bool_conversion_tests_value 16 (gray 16 24)).
  - exact power_of_two_16.
  - apply in_range_dec_true. reflexivity.
Defined.

(** ** Exclusive or and the encoded values *)

(** X8. The exclusive or of two Gray codes of a power-of-two width
    encodes the exclusive or of the two encoded values: [a ^ b] converts
    back to [a_value ^ b_value], and is the code constructed from that
    value. *)
Theorem xor_is_xor_of_values W a b :
  power_of_two W -> in_range W (value a) -> in_range W (value b) ->
  operator_value_type W (operator_xor W a b)
  = Z.lxor (operator_value_type W a) (operator_value_type W b)
  /\ operator_xor W a b
     = gray W (Z.lxor (operator_value_type W a) (operator_value_type W b)).
Proof.
  intros HW Ha Hb.
  assert (Ex : operator_xor W a b = mk_gray_code (Z.lxor (value a) (value b))).
  { unfold operator_xor, xor_assign.
    rewrite wrap_small by (apply lxor_in_range; assumption). reflexivity. }
  rewrite Ex, !operator_value_type_from_gray. simpl value. split.
  - apply from_gray_lxor; assumption.
  - rewrite <- (gray_code_eta (gray W _)), gray_to_gray.
    rewrite to_gray_lxor by (apply from_gray_in_range; assumption).
    rewrite !to_gray_from_gray by assumption. reflexivity.
Qed.

Lemma xor_is_xor_of_values_witness :
  operator_value_type 32 (operator_xor 32 (gray 32 42) (gray 32 28))
  = Z.lxor (operator_value_type 32 (gray 32 42))
      (operator_value_type 32 (gray 32 28))
  /\ operator_xor 32 (gray 32 42) (gray 32 28)
     = gray 32 (Z.lxor (operator_value_type 32 (gray 32 42))
                  (operator_value_type 32 (gray 32 28))).
Proof.
  apply (xor_is_xor_of_values 32 (gray 32 42) (gray 32 28)).
  - exact power_of_two_32.
  - apply in_range_dec_true. reflexivity.
  - apply in_range_dec_true. reflexivity.
Defined.

(** X9. On the narrow widths, [g ^ true] (in either operand order)
    encodes the value of [g] with its last bit flipped: it is the code
    [++] gives when [g] is even and the code [--] gives when [g] is
    odd. *)
Theorem xor_true_is_a_neighbour W tc g :
  narrow W -> in_range W (value g) ->
  operator_value_type W (operator_xor_bool W g true)
  = Z.lxor (operator_value_type W g) 1
  /\ operator_bool_xor W true g = operator_xor_bool W g true
  /\ (is_odd W tc g = false ->
      operator_inc W tc g = Some (operator_xor_bool W g true))
  /\ (is_odd W tc g = true ->
      operator_dec W tc g = Some (operator_xor_bool W g true)).
Proof.
  intros HN Hg. pose proof HN as [HW _].
  pose proof (power_of_two_pos W HW) as Hpos.
  repeat split.
  - unfold operator_xor_bool, xor_assign_bool. simpl Z.b2z.
    rewrite wrap_small by (apply lxor_1_in_range; [lia|exact Hg]).
    rewrite !operator_value_type_from_gray. simpl value.
    rewrite from_gray_lxor by (try apply in_range_1; (lia || assumption)).
    rewrite from_gray_one by exact HW. reflexivity.
  - intros Ho. unfold operator_inc. rewrite (narrow_msb W HN).
    unfold operator_inc_body. rewrite Ho. reflexivity.
  - intros Ho. unfold operator_dec. rewrite (narrow_msb W HN).
    unfold operator_dec_body. rewrite Ho. reflexivity.
Qed.

Lemma xor_true_is_a_neighbour_witness :
  operator_value_type 8 (operator_xor_bool 8 (gray 8 6) true)
  = Z.lxor (operator_value_type 8 (gray 8 6)) 1
  /\ operator_bool_xor 8 true (gray 8 6) = operator_xor_bool 8 (gray 8 6) true
  /\ (is_odd 8 gnuc_or_clang (gray 8 6) = false ->
      operator_inc 8 gnuc_or_clang (gray 8 6)
      = Some (operator_xor_bool 8 (gray 8 6) true))
  /\ (is_odd 8 gnuc_or_clang (gray 8 6) = true ->
      operator_dec 8 gnuc_or_clang (gray 8 6)
      = Some (operator_xor_bool 8 (gray 8 6) true)).
Proof.
  apply (xor_true_is_a_neighbour 8 gnuc_or_clang (gray 8 6)).
  - exact narrow_8.
  - apply in_range_dec_true. reflexivity.
Defined.

(** ** Complement *)

Lemma de_morgan_bits W a b :
  0 <= W ->
  wrap W (Z.lnot (wrap W (Z.land a b)))
  = wrap W (Z.lor (wrap W (Z.lnot a)) (wrap W (Z.lnot b)))
  /\ wrap W (Z.lnot (wrap W (Z.lor a b)))
     = wrap W (Z.land (wrap W (Z.lnot a)) (wrap W (Z.lnot b))).
Proof.
  intros HW. split; apply Z.bits_inj'; intros i Hi;
    repeat first [ rewrite testbit_wrap by lia | rewrite Z.lnot_spec by lia
                 | rewrite Z.lor_spec | rewrite Z.land_spec ];
    destruct (i <? W), (Z.testbit a i), (Z.testbit b i); reflexivity.
Qed.

(** X10. On [W]-bit codes, [~] is the subtraction of the representation
    from [2^W - 1]; it is its own inverse and satisfies De Morgan's laws
    with [&] and [|]. *)
Theorem complement_laws W a b :
  in_range W (value a) -> in_range W (value b) ->
  value (operator_not W a) = 2 ^ W - 1 - value a
  /\ operator_not W (operator_not W a) = a
  /\ operator_not W (operator_and W a b)
     = operator_or W (operator_not W a) (operator_not W b)
  /\ operator_not W (operator_or W a b)
     = operator_and W (operator_not W a) (operator_not W b).
Proof.
  intros Ha Hb. pose proof (in_range_nonneg_width _ _ Ha) as HW.
  destruct (de_morgan_bits W (value a) (value b) HW) as [D1 D2].
  unfold operator_not, operator_and, operator_or, and_assign, or_assign.
  simpl value. repeat split.
  - apply wrap_lnot. exact Ha.
  - rewrite (wrap_lnot W (value a) Ha).
    rewrite wrap_lnot by (unfold in_range in *; lia).
    destruct a as [va]. simpl value. f_equal. lia.
  - f_equal. exact D1.
  - f_equal. exact D2.
Qed.

Lemma complement_laws_witness :
  value (operator_not 8 (gray 8 42)) = 2 ^ 8 - 1 - value (gray 8 42)
  /\ operator_not 8 (operator_not 8 (gray 8 42)) = gray 8 42
  /\ operator_not 8 (operator_and 8 (gray 8 42) (gray 8 28))
     = operator_or 8 (operator_not 8 (gray 8 42)) (operator_not 8 (gray 8 28))
  /\ operator_not 8 (operator_or 8 (gray 8 42) (gray 8 28))
     = operator_and 8 (operator_not 8 (gray 8 42))
         (operator_not 8 (gray 8 28)).
Proof.
  apply (complement_laws 8 (gray 8 42) (gray 8 28)).
  - apply in_range_dec_true. reflexivity.
  - apply in_range_dec_true. reflexivity.
Defined.

(** ** Shifts and the encoded values *)

(** X11. Shifting a Gray code of a power-of-two width right by [k] bits,
    [k] below the width, is defined and shifts the encoded value right by
    [k] bits: the result encodes the value divided by [2^k]. *)
Theorem right_shift_halves W g k :
  power_of_two W -> in_range W (value g) -> 0 <= k < W ->
  exists g', operator_shr W g k = Some g'
             /\ operator_value_type W g'
                = Z.shiftr (operator_value_type W g) k
             /\ operator_value_type W g' = operator_value_type W g / 2 ^ k.
Proof.
  intros HW Hg Hk.
  exists (mk_gray_code (Z.shiftr (value g) k)).
  assert (E : operator_value_type W (mk_gray_code (Z.shiftr (value g) k))
              = Z.shiftr (operator_value_type W g) k).
  { rewrite !operator_value_type_from_gray. simpl value.
    apply from_gray_shiftr; (lia || assumption). }
  split; [|split; [exact E|]].
  - unfold operator_shr, shr_assign. rewrite shr_defined by exact Hk.
    simpl. rewrite wrap_small by (apply shiftr_in_range; [lia|exact Hg]).
    reflexivity.
  - rewrite E. apply Z.shiftr_div_pow2. lia.
Qed.

Lemma right_shift_halves_witness :
  exists g', operator_shr 16 (gray 16 1000) 3 = Some g'
             /\ operator_value_type 16 g'
                = Z.shiftr (operator_value_type 16 (gray 16 1000)) 3
             /\ operator_value_type 16 g'
                = operator_value_type 16 (gray 16 1000) / 2 ^ 3.
Proof.
  apply (right_shift_halves 16 (gray 16 1000) 3).
  - exact power_of_two_16.
  - apply in_range_dec_true. reflexivity.
  - lia.
Defined.

Lemma testbit_b2z_succ b j : 0 <= j -> Z.testbit (Z.b2z b) (Z.succ j) = false.
Proof.
  intros Hj. destruct b; simpl Z.b2z.
  - apply (Z.pow2_bits_false 0). lia.
  - apply Z.testbit_0_l.
Qed.

Lemma xor_shift_1_double x :
  xor_shift 1 (2 * x) = Z.lxor (2 * xor_shift 1 x) (Z.b2z (Z.odd x)).
Proof.
  unfold xor_shift. rewrite shiftr_1_double.
  apply Z.bits_inj'. intros i Hi. rewrite !Z.lxor_spec.
  destruct (Z.eq_dec i 0) as [->|Hne].
  - rewrite !Z.testbit_even_0, Z.b2z_bit0, Z.bit0_odd. reflexivity.
  - replace i with (Z.succ (Z.pred i)) by lia.
    rewrite !Z.testbit_even_succ, testbit_b2z_succ by lia.
    rewrite Z.lxor_spec, testbit_succ_shiftr by lia.
    rewrite xorb_false_r. reflexivity.
Qed.

(** X12. Doubling in the Gray domain: when [2 * x] fits the width, the
    code of [x] shifted left by one bit, then combined by [^] with the
    parity [is_odd] of the code of [x], is the code of [2 * x]. *)
Theorem left_shift_doubles W tc x :
  power_of_two W -> parity_supported tc W -> 0 <= x -> 2 * x < 2 ^ W ->
  exists g', operator_shl W (gray W x) 1 = Some g'
             /\ operator_xor_bool W g' (is_odd W tc (gray W x))
                = gray W (2 * x).
Proof.
  intros HW Htc Hx H2x. pose proof (power_of_two_pos W HW) as Hpos.
  assert (E2 : 2 ^ W = 2 * 2 ^ (W - 1)).
  { rewrite <- Z.pow_succ_r by lia. f_equal. lia. }
  assert (Hr : in_range W x) by (unfold in_range; lia).
  assert (Hr2 : in_range W (2 * x)) by (unfold in_range; lia).
  assert (Hh : in_range (W - 1) (xor_shift 1 x)).
  { apply xor_shift_in_range; [lia|]. unfold in_range. lia. }
  destruct (is_odd_gray W tc x HW Htc Hr) as [-> _].
  exists (mk_gray_code (2 * xor_shift 1 x)). split.
  - unfold operator_shl, shl_assign.
    rewrite gray_to_gray, to_gray_xor_shift by exact Hr.
    rewrite shl_1 by (unfold in_range in Hh; lia). cbn [option_map].
    rewrite wrap_small by (unfold in_range in *; lia). reflexivity.
  - unfold operator_xor_bool, xor_assign_bool. cbn [value].
    rewrite <- xor_shift_1_double.
    rewrite <- (gray_code_eta (gray W (2 * x))), gray_to_gray.
    rewrite to_gray_xor_shift by exact Hr2.
    rewrite wrap_small by (apply xor_shift_in_range; [lia|exact Hr2]).
    reflexivity.
Qed.

Lemma left_shift_doubles_witness :
  exists g', operator_shl 8 (gray 8 77) 1 = Some g'
             /\ operator_xor_bool 8 g' (is_odd 8 gnuc_or_clang (gray 8 77))
                = gray 8 (2 * 77).
Proof.
  apply (left_shift_doubles 8 gnuc_or_clang 77).
  - exact power_of_two_8.
  - simpl. unfold int_digits. lia.
  - lia.
  - simpl. lia.
Defined.

(** X13. Bit [i] of the value that [operator value_type] returns is the
    parity of the number of set bits of the representation at positions
    [i] and above. *)
Theorem value_bit_is_suffix_parity W g i :
  power_of_two W -> in_range W (value g) -> 0 <= i ->
  Z.testbit (operator_value_type W g) i
  = Nat.odd (popcount (Z.shiftr (value g) i)).
Proof.
  intros HW Hg Hi. rewrite operator_value_type_from_gray.
  rewrite (odd_popcount_from_gray W)
    by (try apply shiftr_in_range; assumption).
  rewrite from_gray_shiftr by assumption.
  rewrite <- Z.bit0_odd, Z.shiftr_spec by lia. reflexivity.
Qed.

Lemma value_bit_is_suffix_parity_witness :
  Z.testbit (operator_value_type 8 (gray 8 24)) 3
  = Nat.odd (popcount (Z.shiftr (value (gray 8 24)) 3)).
Proof.
  apply (value_bit_is_suffix_parity 8 (gray 8 24) 3).
  - exact power_of_two_8.
  - apply in_range_dec_true. reflexivity.
  - lia.
Defined.

(** ** Parity *)

(** X14. Where the branch of [is_odd] receives the whole representation
    (the portable branch on every power-of-two width, the intrinsic
    branch up to the width of [int]), [is_odd] is the parity of the
    number of set bits of the representation, which is the parity of the
    encoded value; [is_even] is the evenness of that value; and the
    result is the one of the portable branch. *)
Theorem parity_law W tc g :
  power_of_two W -> parity_supported tc W -> in_range W (value g) ->
  is_odd W tc g = Nat.odd (popcount (value g))
  /\ is_odd W tc g = Z.odd (operator_value_type W g)
  /\ is_even W tc g = Z.even (operator_value_type W g)
  /\ is_odd W tc g = is_odd W other_compiler g.
Proof.
  intros HW Htc Hg. repeat split.
  - apply is_odd_popcount; assumption.
  - apply is_odd_value; assumption.
  - unfold is_even. rewrite is_odd_value by assumption.
    apply Z.negb_odd.
  - rewrite (is_odd_popcount W tc g HW Htc Hg).
    symmetry. apply is_odd_portable_popcount; assumption.
Qed.

Lemma parity_law_witness :
  is_odd 32 gnuc_or_clang (gray 32 12357)
  = Nat.odd (popcount (value (gray 32 12357)))
  /\ is_odd 32 gnuc_or_clang (gray 32 12357)
     = Z.odd (operator_value_type 32 (gray 32 12357))
  /\ is_even 32 gnuc_or_clang (gray 32 12357)
     = Z.even (operator_value_type 32 (gray 32 12357))
  /\ is_odd 32 gnuc_or_clang (gray 32 12357)
     = is_odd 32 other_compiler (gray 32 12357).
Proof.
  apply (parity_law 32 gnuc_or_clang (gray 32 12357)).
  - exact power_of_two_32.
  - simpl. unfold int_digits. lia.
  - apply in_range_dec_true. reflexivity.
Defined.

(** ** The boundary patterns and the rule, on the narrow widths *)

(** X15. On a power-of-two width up to that of [int], on both branches
    of [is_odd]: the code of [2^W - 1] has the single bit [2^(W-1)] set,
    [++] turns it into the representation 0, which converts back to 0;
    [--] turns the representation 0 into [2^(W-1)], which converts back
    to [2^W - 1]. *)
Theorem wraparound_on_narrow_widths W tc :
  narrow W ->
  value (gray W (2 ^ W - 1)) = 2 ^ (W - 1)
  /\ operator_inc W tc (gray W (2 ^ W - 1)) = Some (mk_gray_code 0)
  /\ operator_value_type W (mk_gray_code 0) = 0
  /\ operator_dec W tc (mk_gray_code 0) = Some (mk_gray_code (2 ^ (W - 1)))
  /\ operator_value_type W (mk_gray_code (2 ^ (W - 1))) = 2 ^ W - 1.
Proof.
  intros HN. pose proof HN as [HW Hle].
  pose proof (power_of_two_pos W HW) as Hpos.
  assert (Emax : value (gray W (2 ^ W - 1)) = 2 ^ (W - 1))
    by (rewrite gray_to_gray; apply to_gray_max; lia).
  assert (Hmsb : in_range W (2 ^ (W - 1))) by (apply msb_pattern_in_range; lia).
  assert (H0 : in_range W 0) by (split; [lia|apply Z.pow_pos_nonneg; lia]).
  repeat split.
  - exact Emax.
  - destruct (operator_inc_refines W tc (gray W (2 ^ W - 1)) HN) as [-> _];
      [rewrite Emax; exact Hmsb|].
    rewrite Emax. unfold spec_successor, odd_bits.
    rewrite popcount_pow2 by lia. simpl. rewrite Z.eqb_refl. reflexivity.
  - apply from_gray_zero. exact HW.
  - destruct (operator_dec_refines W tc (mk_gray_code 0) HN H0) as [-> _].
    reflexivity.
  - apply from_gray_max. exact HW.
Qed.

Lemma wraparound_on_narrow_widths_witness :
  value (gray 8 (2 ^ 8 - 1)) = 2 ^ (8 - 1)
  /\ operator_inc 8 gnuc_or_clang (gray 8 (2 ^ 8 - 1)) = Some (mk_gray_code 0)
  /\ operator_value_type 8 (mk_gray_code 0) = 0
  /\ operator_dec 8 gnuc_or_clang (mk_gray_code 0)
     = Some (mk_gray_code (2 ^ (8 - 1)))
  /\ operator_value_type 8 (mk_gray_code (2 ^ (8 - 1))) = 2 ^ 8 - 1.
Proof. apply (wraparound_on_narrow_widths 8 gnuc_or_clang). exact narrow_8. Defined.

(** X16. On the narrow widths the branches of [++] and [--] follow the
    parity of the encoded value: [++] flips bit 0 of an even code and,
    away from the pattern [2^(W-1)], the bit left of the lowest set bit
    of an odd code; [--] flips bit 0 of an odd code and, away from the
    pattern 0, the bit left of the lowest set bit of an even code. *)
Theorem increment_rule_on_narrow_widths W tc g :
  narrow W -> in_range W (value g) ->
  (Z.even (operator_value_type W g) = true ->
   operator_inc W tc g = Some (mk_gray_code (Z.lxor (value g) 1)))
  /\ (Z.odd (operator_value_type W g) = true -> value g <> 2 ^ (W - 1) ->
      operator_inc W tc g
      = Some (mk_gray_code
                (Z.lxor (value g)
                   (Z.shiftl (Z.land (value g) (- value g)) 1))))
  /\ (Z.odd (operator_value_type W g) = true ->
      operator_dec W tc g = Some (mk_gray_code (Z.lxor (value g) 1)))
  /\ (Z.even (operator_value_type W g) = true -> value g <> 0 ->
      operator_dec W tc g
      = Some (mk_gray_code
                (Z.lxor (value g)
                   (Z.shiftl (Z.land (value g) (- value g)) 1)))).
Proof.
  intros HN Hg. pose proof HN as [HW _].
  destruct (operator_inc_refines W tc g HN Hg) as [-> _].
  destruct (operator_dec_refines W tc g HN Hg) as [-> _].
  unfold spec_successor, spec_predecessor, odd_bits, flip_left.
  rewrite (odd_popcount_from_gray W (value g) HW Hg).
  rewrite operator_value_type_from_gray, <- Z.negb_odd.
  destruct (Z.odd (from_gray W (value g))); simpl; repeat split;
    try discriminate; try reflexivity.
  - intros _ Hne. destruct (Z.eqb_spec (value g) (2 ^ (W - 1))); [contradiction|].
    reflexivity.
  - intros _ Hne. destruct (Z.eqb_spec (value g) 0); [contradiction|].
    reflexivity.
Qed.

Lemma increment_rule_on_narrow_widths_witness :
  (Z.even (operator_value_type 8 (gray 8 5)) = true ->
   operator_inc 8 other_compiler (gray 8 5)
   = Some (mk_gray_code (Z.lxor (value (gray 8 5)) 1)))
  /\ (Z.odd (operator_value_type 8 (gray 8 5)) = true ->
      value (gray 8 5) <> 2 ^ (8 - 1) ->
      operator_inc 8 other_compiler (gray 8 5)
      = Some (mk_gray_code
                (Z.lxor (value (gray 8 5))
                   (Z.shiftl (Z.land (value (gray 8 5))
                                (- value (gray 8 5))) 1))))
  /\ (Z.odd (operator_value_type 8 (gray 8 5)) = true ->
      operator_dec 8 other_compiler (gray 8 5)
      = Some (mk_gray_code (Z.lxor (value (gray 8 5)) 1)))
  /\ (Z.even (operator_value_type 8 (gray 8 5)) = true ->
      value (gray 8 5) <> 0 ->
      operator_dec 8 other_compiler (gray 8 5)
      = Some (mk_gray_code
                (Z.lxor (value (gray 8 5))
                   (Z.shiftl (Z.land (value (gray 8 5))
                                (- value (gray 8 5))) 1)))).
Proof.
  apply (increment_rule_on_narrow_widths 8 other_compiler (gray 8 5)).
  - exact narrow_8.
  - apply in_range_dec_true. reflexivity.
Defined.

Lemma lxor_cancel v t : Z.lxor v (Z.lxor v t) = t.
Proof. rewrite <- Z.lxor_assoc, Z.lxor_nilpotent. apply Z.lxor_0_l. Qed.

Lemma flip_left_power v :
  0 < v -> exists j, 0 <= j /\ flip_left v = Z.lxor v (2 ^ j).
Proof.
  intros Hpos. unfold flip_left.
  destruct (odd_decomposition v Hpos) as [k [m [Hk [Hm E]]]].
  exists (k + 1). split; [lia|].
  rewrite E at 2 3. rewrite lowest_bit_decomposed by exact Hk.
  rewrite Z.shiftl_mul_pow2, <- Z.pow_add_r by lia. reflexivity.
Qed.

Lemma spec_successor_flips_one W v :
  1 <= W -> in_range W v ->
  exists j, 0 <= j /\ spec_successor W v = Z.lxor v (2 ^ j).
Proof.
  intros HW Hv. unfold spec_successor.
  destruct (odd_bits v) eqn:Ho.
  - destruct (Z.eqb_spec v (2 ^ (W - 1))) as [E|Hne].
    + exists (W - 1). split; [lia|].
      rewrite E, Z.lxor_nilpotent. reflexivity.
    + apply flip_left_power. apply odd_bits_pos; [apply Hv|exact Ho].
  - exists 0. split; [lia|reflexivity].
Qed.

Lemma spec_predecessor_flips_one W v :
  1 <= W -> in_range W v ->
  exists j, 0 <= j /\ spec_predecessor W v = Z.lxor v (2 ^ j).
Proof.
  intros HW Hv. unfold spec_predecessor.
  destruct (odd_bits v) eqn:Ho.
  - exists 0. split; [lia|reflexivity].
  - destruct (Z.eqb_spec v 0) as [E|Hne].
    + exists (W - 1). split; [lia|]. rewrite E, Z.lxor_0_l. reflexivity.
    + apply flip_left_power. destruct Hv. lia.
Qed.

(** X17. On the narrow widths, the representations before and after
    [++], and before and after [--], differ in exactly one bit, wrapping
    around included; hence both neighbours of a code have the opposite
    parity. *)
Theorem neighbours_differ_in_one_bit W tc g :
  narrow W -> in_range W (value g) ->
  exists gi gd,
    operator_inc W tc g = Some gi /\ operator_dec W tc g = Some gd
    /\ popcount (Z.lxor (value g) (value gi)) = 1%nat
    /\ popcount (Z.lxor (value g) (value gd)) = 1%nat
    /\ is_odd W tc gi = negb (is_odd W tc g)
    /\ is_odd W tc gd = negb (is_odd W tc g).
Proof.
  intros HN Hg. pose proof HN as [HW _].
  pose proof (power_of_two_pos W HW) as Hpos.
  pose proof (narrow_parity_supported W tc HN) as Htc.
  destruct (operator_inc_refines W tc g HN Hg) as [Hinc Hri].
  destruct (operator_dec_refines W tc g HN Hg) as [Hdec Hrd].
  destruct (spec_successor_flips_one W (value g) ltac:(lia) Hg)
    as [j [Hj Ej]].
  destruct (spec_predecessor_flips_one W (value g) ltac:(lia) Hg)
    as [k [Hk Ek]].
  exists (mk_gray_code (spec_successor W (value g))),
    (mk_gray_code (spec_predecessor W (value g))).
  split; [exact Hinc|]. split; [exact Hdec|].
  rewrite !is_odd_popcount by assumption. simpl value.
  rewrite Ej, Ek, !lxor_cancel, !popcount_pow2 by assumption.
  rewrite !odd_popcount_flip by (try apply Hg; assumption).
  repeat split.
Qed.

Lemma neighbours_differ_in_one_bit_witness :
  exists gi gd,
    operator_inc 8 gnuc_or_clang (gray 8 255) = Some gi
    /\ operator_dec 8 gnuc_or_clang (gray 8 255) = Some gd
    /\ popcount (Z.lxor (value (gray 8 255)) (value gi)) = 1%nat
    /\ popcount (Z.lxor (value (gray 8 255)) (value gd)) = 1%nat
    /\ is_odd 8 gnuc_or_clang gi = negb (is_odd 8 gnuc_or_clang (gray 8 255))
    /\ is_odd 8 gnuc_or_clang gd = negb (is_odd 8 gnuc_or_clang (gray 8 255)).
Proof.
  apply (neighbours_differ_in_one_bit 8 gnuc_or_clang (gray 8 255)).
  - exact narrow_8.
  - apply in_range_dec_true. reflexivity.
Defined.

(** ** Widths beyond [int] *)

(** X18. On every width wider than [int], the constant [msb] of
    [operator++] and [operator--] has no value (it is the [int] shift
    [1 << (W - 1)]), so neither operator, prefix or postfix, has a
    defined result on any code. *)
Theorem wide_increment_undefined W tc g :
  int_digits < W ->
  msb W = None
  /\ operator_inc W tc g = None /\ operator_dec W tc g = None
  /\ operator_inc_post W tc g = None /\ operator_dec_post W tc g = None.
Proof.
  intros HW. pose proof (msb_wide W HW) as Hm.
  unfold operator_inc_post, operator_dec_post, operator_inc, operator_dec.
  rewrite Hm. repeat split.
Qed.

Lemma wide_increment_undefined_witness :
  msb 64 = None
  /\ operator_inc 64 other_compiler (gray 64 5) = None
  /\ operator_dec 64 other_compiler (gray 64 5) = None
  /\ operator_inc_post 64 other_compiler (gray 64 5) = None
  /\ operator_dec_post 64 other_compiler (gray 64 5) = None.
Proof.
  apply (wide_increment_undefined 64 other_compiler (gray 64 5)).
  unfold int_digits. lia.
Defined.

(** ** Powers of two *)

(** X19. The Gray code of a power of two [2^n], [1 <= n < W], is made of
    two adjacent set bits: its representation is [0b11 << (n - 1)]. *)
Theorem gray_of_power_of_two W n :
  1 <= n < W ->
  value (gray W (2 ^ n)) = Z.shiftl 3 (n - 1).
Proof.
  intros Hn.
  assert (Hr : in_range W (2 ^ n)).
  { split; [apply Z.pow_nonneg; lia|apply Z.pow_lt_mono_r; lia]. }
  rewrite gray_to_gray, to_gray_xor_shift by exact Hr. unfold xor_shift.
  rewrite Z.shiftr_div_pow2, <- Z.pow_sub_r by lia.
  rewrite Z.shiftl_mul_pow2 by lia.
  assert (E : 2 ^ n = 2 * 2 ^ (n - 1)).
  { rewrite <- Z.pow_succ_r by lia. f_equal. lia. }
  rewrite <- Z.add_nocarry_lxor.
  - rewrite E. ring.
  - apply Z.bits_inj'. intros i Hi.
    rewrite Z.land_spec, !Z.pow2_bits_eqb, Z.testbit_0_l by lia.
    destruct (Z.eqb_spec n i), (Z.eqb_spec (n - 1) i); try reflexivity. lia.
Qed.

Lemma gray_of_power_of_two_witness :
  value (gray 32 (2 ^ 10)) = Z.shiftl 3 (10 - 1).
Proof. apply (gray_of_power_of_two 32 10). lia. Defined.

(** ** Counting *)

Lemma mk_to_gray W x : mk_gray_code (to_gray W x) = gray W x.
Proof. rewrite <- gray_to_gray. apply gray_code_eta. Qed.

Lemma gray_of_value_type W g :
  power_of_two W -> in_range W (value g) ->
  gray W (operator_value_type W g) = g.
Proof.
  intros HW Hg. rewrite <- mk_to_gray, operator_value_type_from_gray.
  rewrite to_gray_from_gray by assumption. apply gray_code_eta.
Qed.

Lemma operator_inc_gray W tc x :
  narrow W -> in_range W x ->
  operator_inc W tc (gray W x) = Some (gray W ((x + 1) mod 2 ^ W)).
Proof.
  intros HN Hx. pose proof HN as [HW _].
  assert (Hg : in_range W (value (gray W x)))
    by (rewrite gray_to_gray; apply to_gray_in_range; exact Hx).
  destruct (operator_inc_refines W tc (gray W x) HN Hg) as [-> _].
  rewrite gray_to_gray, spec_successor_to_gray by assumption.
  rewrite mk_to_gray. reflexivity.
Qed.

Lemma operator_dec_gray W tc x :
  narrow W -> in_range W x ->
  operator_dec W tc (gray W x) = Some (gray W ((x - 1) mod 2 ^ W)).
Proof.
  intros HN Hx. pose proof HN as [HW _].
  assert (Hg : in_range W (value (gray W x)))
    by (rewrite gray_to_gray; apply to_gray_in_range; exact Hx).
  destruct (operator_dec_refines W tc (gray W x) HN Hg) as [Hdec Hr].
  destruct (operator_dec_value W tc (gray W x) HN Hg) as [g' [Hdec' Hv]].
  assert (Hr' : in_range W (value g')).
  { rewrite Hdec in Hdec'. inversion Hdec'. exact Hr. }
  assert (Ex : operator_value_type W (gray W x) = x).
  { rewrite operator_value_type_from_gray, gray_to_gray.
    apply from_gray_to_gray; assumption. }
  rewrite Ex in Hv. rewrite Hdec', <- Hv.
  rewrite gray_of_value_type by assumption. reflexivity.
Qed.

(** X20. Counting in the Gray domain, on the narrow widths: [n]
    increments of the code of [x] give the code of [x + n] modulo [2^W],
    and [n] decrements give the code of [x - n] modulo [2^W]. *)
Theorem counting_loops W tc n x :
  narrow W -> in_range W x ->
  inc_times W tc n (gray W x) = Some (gray W ((x + Z.of_nat n) mod 2 ^ W))
  /\ dec_times W tc n (gray W x) = Some (gray W ((x - Z.of_nat n) mod 2 ^ W)).
Proof.
  intros HN. pose proof HN as [HW _].
  pose proof (power_of_two_pos W HW) as Hpos.
  assert (H2W : 0 < 2 ^ W) by (apply Z.pow_pos_nonneg; lia).
  revert x. induction n as [|n IH]; intros x Hx.
  - simpl inc_times. simpl dec_times. simpl Z.of_nat.
    rewrite Z.add_0_r, Z.sub_0_r, Z.mod_small by exact Hx.
    split; reflexivity.
  - simpl inc_times. simpl dec_times.
    rewrite operator_inc_gray, operator_dec_gray by assumption.
    destruct (IH ((x + 1) mod 2 ^ W)) as [-> _];
      [apply Z.mod_pos_bound; exact H2W|].
    destruct (IH ((x - 1) mod 2 ^ W)) as [_ ->];
      [apply Z.mod_pos_bound; exact H2W|].
    rewrite Z.add_mod_idemp_l by lia.
    rewrite <- Zminus_mod_idemp_l.
    rewrite Z.mod_mod, Zminus_mod_idemp_l by lia.
    rewrite Nat2Z.inj_succ.
    split; do 2 f_equal; f_equal; lia.
Qed.

Lemma counting_loops_witness :
  inc_times 8 gnuc_or_clang 10 (gray 8 250)
  = Some (gray 8 ((250 + Z.of_nat 10) mod 2 ^ 8))
  /\ dec_times 8 gnuc_or_clang 10 (gray 8 250)
     = Some (gray 8 ((250 - Z.of_nat 10) mod 2 ^ 8)).
Proof.
  apply (counting_loops 8 gnuc_or_clang 10 250).
  - exact narrow_8.
  - apply in_range_dec_true. reflexivity.
Defined.

(** ** Both neighbours at once *)

Lemma narrow_cases W :
  narrow W -> W = 1 \/ W = 2 \/ W = 4 \/ W = 8 \/ W = 16 \/ W = 32.
Proof.
  intros [[k ->] Hle]. unfold int_digits in Hle.
  destruct (le_lt_dec k 5) as [Hk|Hk].
  - do 6 (destruct k as [|k]; [simpl; auto 6|]). lia.
  - exfalso.
    assert (2 ^ 6 <= 2 ^ Z.of_nat k) by (apply Z.pow_le_mono_r; lia).
    change (2 ^ 6) with 64 in *. lia.
Qed.

Lemma neighbors_msb W :
  narrow W ->
  neighbors W (mk_gray_code (2 ^ (W - 1)))
  = Some (mk_gray_code (2 ^ (W - 1)), mk_gray_code 0).
Proof.
  intros HN.
  destruct (narrow_cases W HN) as [->|[->|[->|[->|[->| ->]]]]]; reflexivity.
Qed.

(** X21. [neighbors] on the narrow widths.  For a code other than the
    pattern [2^(W-1)], the pair it returns holds the two neighbours:
    (successor, predecessor) when the code is odd, (predecessor,
    successor) when it is even, the code 0 included.  For the pattern
    [2^(W-1)], the code of [2^W - 1], the second component is the
    successor, the code of 0, but the first component is that pattern
    itself: the shift [y << 1] leaves the width. *)
Theorem neighbors_are_the_neighbours W tc code :
  narrow W -> in_range W (value code) ->
  exists first second,
    neighbors W code = Some (first, second)
    /\ (value code <> 2 ^ (W - 1) ->
        if is_odd W tc code
        then operator_inc W tc code = Some first
             /\ operator_dec W tc code = Some second
        else operator_dec W tc code = Some first
             /\ operator_inc W tc code = Some second)
    /\ (value code = 2 ^ (W - 1) ->
        first = code /\ operator_inc W tc code = Some second).
Proof.
  intros HN Hg. pose proof HN as [HW _].
  pose proof (power_of_two_pos W HW) as Hpos.
  pose proof (narrow_parity_supported W tc HN) as Htc.
  destruct (operator_inc_refines W tc code HN Hg) as [Hinc _].
  destruct (operator_dec_refines W tc code HN Hg) as [Hdec _].
  rewrite Hinc, Hdec, (is_odd_popcount W tc code HW Htc Hg).
  fold (odd_bits (value code)).
  destruct (Z.eq_dec (value code) (2 ^ (W - 1))) as [E|Hne].
  - destruct code as [v]. simpl value in *. subst v.
    exists (mk_gray_code (2 ^ (W - 1))), (mk_gray_code 0).
    split; [apply neighbors_msb; exact HN|].
    split; [intros Hc; contradiction|]. intros _.
    split; [reflexivity|].
    unfold spec_successor, odd_bits. rewrite popcount_pow2 by lia.
    simpl. rewrite Z.eqb_refl. reflexivity.
  - unfold neighbors. rewrite (narrow_msb W HN).
    destruct (Z.eqb_spec (value code) (2 ^ (W - 1))) as [E|_];
      [contradiction|].
    destruct (Z.eqb_spec (value code) 0) as [E0|Hne0].
    + exists (mk_gray_code (2 ^ (W - 1))), (mk_gray_code (wrap W 1)).
      split; [reflexivity|]. split; [|intros Hc; contradiction].
      intros _. rewrite E0. unfold spec_successor, spec_predecessor.
      simpl. rewrite wrap_small by (apply in_range_1; lia).
      split; reflexivity.
    + assert (Hp : 0 < value code) by (destruct Hg; lia).
      destruct (flip_left_of_lowest_spec W (value code) Hg Hp Hne)
        as [Hflip _].
      unfold flip_left_of_lowest in Hflip.
      destruct (shl W (Z.land (value code) (neg W (value code))) 1)
        as [y1|]; [|discriminate].
      injection Hflip as Hflip.
      exists (mk_gray_code (wrap W (Z.lxor (value code) y1))),
        (mk_gray_code (wrap W (Z.lxor (value code) 1))).
      split; [reflexivity|]. split; [|intros Hc; contradiction].
      intros _. rewrite Hflip.
      rewrite wrap_small by (apply lxor_1_in_range; [lia|exact Hg]).
      unfold spec_successor, spec_predecessor, flip_left.
      destruct (odd_bits (value code)).
      * destruct (Z.eqb_spec (value code) (2 ^ (W - 1)));
          [contradiction|]. split; reflexivity.
      * destruct (Z.eqb_spec (value code) 0); [contradiction|].
        split; reflexivity.
Qed.

Lemma neighbors_are_the_neighbours_witness :
  exists first second,
    neighbors 8 (gray 8 5) = Some (first, second)
    /\ (value (gray 8 5) <> 2 ^ (8 - 1) ->
        if is_odd 8 gnuc_or_clang (gray 8 5)
        then operator_inc 8 gnuc_or_clang (gray 8 5) = Some first
             /\ operator_dec 8 gnuc_or_clang (gray 8 5) = Some second
        else operator_dec 8 gnuc_or_clang (gray 8 5) = Some first
             /\ operator_inc 8 gnuc_or_clang (gray 8 5) = Some second)
    /\ (value (gray 8 5) = 2 ^ (8 - 1) ->
        first = gray 8 5
        /\ operator_inc 8 gnuc_or_clang (gray 8 5) = Some second).
Proof.
  apply (neighbors_are_the_neighbours 8 gnuc_or_clang (gray 8 5)).
  - exact narrow_8.
  - apply in_range_dec_true. reflexivity.
Defined.

(** ** Parity by folding and table lookup *)

Lemma table_lookup n :
  0 <= n < 16 ->
  cast_bool (Z.land (Z.shiftr 27030 n) 1) = Nat.odd (popcount n).
Proof.
  intros Hn. destruct n as [|p|p]; [reflexivity| |lia].
  do 4 (try (destruct p as [p|p|]; try reflexivity)); lia.
Qed.

Lemma popcount_double y : 0 <= y -> popcount (2 * y) = popcount y.
Proof. intros Hy. destruct y as [|p|p]; [reflexivity|reflexivity|lia]. Qed.

Lemma popcount_shiftl x s :
  0 <= x -> 0 <= s -> popcount (Z.shiftl x s) = popcount x.
Proof.
  intros Hx Hs. rewrite <- (Z2Nat.id s Hs).
  induction (Z.to_nat s) as [|n IH]; [rewrite Z.shiftl_0_r; reflexivity|].
  rewrite Nat2Z.inj_succ, <- Z.add_1_r, <- Z.shiftl_shiftl by lia.
  rewrite (Z.shiftl_mul_pow2 _ 1) by lia. change (2 ^ 1) with 2.
  rewrite Z.mul_comm, popcount_double; [exact IH|].
  apply Z.shiftl_nonneg. exact Hx.
Qed.

Lemma wrap_nonneg W x : 0 <= W -> 0 <= wrap W x.
Proof. intros HW. apply (wrap_in_range W x HW). Qed.

(** Folding the upper half of the low [2 s] bits into the lower half
    keeps their parity. *)
Lemma odd_bits_fold_half s v :
  0 <= s ->
  odd_bits (wrap s (xor_shift s v)) = odd_bits (wrap (2 * s) v).
Proof.
  intros Hs. unfold odd_bits.
  assert (E1 : wrap s (xor_shift s v)
               = Z.lxor (wrap s v) (wrap s (Z.shiftr v s))).
  { unfold xor_shift. apply Z.bits_inj'. intros i Hi.
    rewrite Z.lxor_spec, !testbit_wrap, Z.lxor_spec by lia.
    destruct (i <? s); reflexivity. }
  assert (E2 : wrap (2 * s) v
               = Z.lxor (wrap s v) (Z.shiftl (wrap s (Z.shiftr v s)) s)).
  { apply Z.bits_inj'. intros i Hi.
    rewrite Z.lxor_spec, !testbit_wrap by lia.
    destruct (Z.ltb_spec i s) as [Hlt|Hge].
    - rewrite Z.shiftl_spec_low by lia.
      replace (i <? 2 * s) with true by (symmetry; apply Z.ltb_lt; lia).
      rewrite xorb_false_r. reflexivity.
    - rewrite Z.shiftl_spec, testbit_wrap, Z.shiftr_spec by lia.
      replace (i - s + s) with i by lia.
      destruct (Z.ltb_spec i (2 * s)), (Z.ltb_spec (i - s) s);
        try reflexivity; lia. }
  rewrite E1, E2.
  rewrite !odd_popcount_lxor
    by (try apply Z.shiftl_nonneg; apply wrap_nonneg; exact Hs).
  rewrite popcount_shiftl by (try apply wrap_nonneg; exact Hs).
  reflexivity.
Qed.

Lemma xor_fold_above_2_in_range W p x :
  in_range W x -> in_range W (xor_fold_above_2 W p x).
Proof.
  revert x. induction p as [p IH|p IH|]; intros x Hx; simpl.
  - apply IH. apply wrap_in_range. exact (in_range_nonneg_width _ _ Hx).
  - destruct p; try exact Hx;
      apply IH; apply wrap_in_range; exact (in_range_nonneg_width _ _ Hx).
  - exact Hx.
Qed.

Lemma xor_fold_above_2_parity W k v :
  in_range W v ->
  odd_bits (wrap 4 (xor_fold_above_2 W (pow2_pos (S k)) v))
  = odd_bits (wrap (2 ^ Z.of_nat (S (S k))) v).
Proof.
  revert v. induction k as [|k IH]; intros v Hv; [reflexivity|].
  change (xor_fold_above_2 W (pow2_pos (S (S k))) v)
    with (xor_fold_above_2 W (pow2_pos (S k))
            (wrap W (Z.lxor v (Z.shiftr v (Z.pos (pow2_pos (S (S k)))))))).
  fold (xor_shift (Z.pos (pow2_pos (S (S k)))) v).
  rewrite pow2_pos_spec.
  assert (Hs : 0 <= 2 ^ Z.of_nat (S (S k))) by (apply Z.pow_nonneg; lia).
  assert (Hr : in_range W (xor_shift (2 ^ Z.of_nat (S (S k))) v))
    by (apply xor_shift_in_range; assumption).
  rewrite (wrap_small W _ Hr).
  rewrite IH by exact Hr.
  rewrite odd_bits_fold_half by exact Hs.
  f_equal. f_equal.
  rewrite (Nat2Z.inj_succ (S (S k))), Z.pow_succ_r by lia. reflexivity.
Qed.

Lemma land_15_in_range W y : in_range W y -> in_range W (Z.land y 15).
Proof.
  intros Hy. pose proof (in_range_nonneg_width _ _ Hy) as HW.
  apply high_bits_in_range; [exact HW| |].
  - apply Z.land_nonneg. left. apply Hy.
  - intros i Hi. rewrite Z.land_spec.
    rewrite (in_range_high_bits W y i Hy Hi). reflexivity.
Qed.

(** X22. The [parity] function that folds down to four bits and looks
    the rest up in the table [0b0110100110010110] returns, on every
    power-of-two width, the parity of the number of set bits of its
    argument: the result of the portable branch of [is_odd]. *)
Theorem parity_lookup_is_parity W v :
  power_of_two W -> in_range W v ->
  parity_lookup W v = Nat.odd (popcount v)
  /\ parity_lookup W v = is_odd W other_compiler (mk_gray_code v).
Proof.
  intros HW Hv.
  assert (E : parity_lookup W v = Nat.odd (popcount v)).
  { unfold parity_lookup.
    set (y := xor_fold_above_2_from W (W / 2) v).
    assert (Hy : in_range W y).
    { unfold y, xor_fold_above_2_from. destruct (W / 2); try exact Hv.
      apply xor_fold_above_2_in_range. exact Hv. }
    rewrite wrap_small by (apply land_15_in_range; exact Hy).
    change 15 with (Z.ones 4). rewrite Z.land_ones by lia.
    rewrite table_lookup by (apply Z.mod_pos_bound; lia).
    fold (wrap 4 y). fold (odd_bits (wrap 4 y)). fold (odd_bits v).
    destruct HW as [[|[|k]] EW].
    - subst W. unfold y. simpl. f_equal. apply wrap_small.
      apply (in_range_mono 1); [lia|exact Hv].
    - subst W. unfold y. simpl. f_equal. apply wrap_small.
      apply (in_range_mono 2); [lia|exact Hv].
    - assert (Hhalf : W / 2 = Z.pos (pow2_pos (S k))).
      { rewrite EW, pow2_pos_spec, (Nat2Z.inj_succ (S k)), Z.pow_succ_r by lia.
        rewrite Z.mul_comm. apply Z.div_mul. lia. }
      unfold y. rewrite Hhalf.
      change (xor_fold_above_2_from W (Z.pos (pow2_pos (S k))) v)
        with (xor_fold_above_2 W (pow2_pos (S k)) v).
      rewrite xor_fold_above_2_parity by exact Hv.
      rewrite <- EW. f_equal. apply wrap_small. exact Hv. }
  split; [exact E|].
  rewrite E. symmetry. apply is_odd_portable_popcount; assumption.
Qed.

Lemma parity_lookup_is_parity_witness :
  parity_lookup 32 12357 = Nat.odd (popcount 12357)
  /\ parity_lookup 32 12357 = is_odd 32 other_compiler (mk_gray_code 12357).
Proof.
  apply (parity_lookup_is_parity 32 12357).
  - exact power_of_two_32.
  - apply in_range_dec_true. reflexivity.
Defined.

(** ** Harold Lucal's addition *)

Lemma bool_word W e f x y :
  1 <= W ->
  wrap W (Z.lxor (Z.lxor (Z.land (Z.b2z e) (Z.b2z f)) (Z.b2z x)) (Z.b2z y))
  = Z.b2z (xorb (xorb (e && f) x) y).
Proof.
  intros HW.
  destruct e, f, x, y; simpl; apply wrap_small;
    (apply in_range_1 || apply in_range_0); lia.
Qed.

Lemma cast_bool_word e f x :
  cast_bool (Z.lxor (Z.land (Z.b2z e) (Z.b2z f)) (Z.b2z x)) = xorb (e && f) x.
Proof. destruct e, f, x; reflexivity. Qed.

Lemma testbit_shifted_bit r i j :
  0 <= i -> 0 <= j ->
  Z.testbit (Z.b2z r * 2 ^ i) j = (j =? i) && r.
Proof.
  intros Hi Hj. rewrite Z.mul_pow2_bits by exact Hi.
  destruct (Z.eqb_spec j i) as [->|Hne].
  - rewrite Z.sub_diag. apply Z.b2z_bit0.
  - destruct (Z_lt_le_dec j i) as [Hlt|Hge].
    + apply Z.testbit_neg_r. lia.
    + replace (j - i) with (Z.succ (j - i - 1)) by lia.
      apply testbit_b2z_succ. lia.
Qed.

Lemma wrap_extend i G :
  0 <= i ->
  Z.lor (wrap i G) (Z.b2z (Z.testbit G i) * 2 ^ i) = wrap (i + 1) G.
Proof.
  intros Hi. apply Z.bits_inj'. intros j Hj.
  rewrite Z.lor_spec, !testbit_wrap, testbit_shifted_bit by lia.
  destruct (Z.eqb_spec j i) as [->|Hne].
  - replace (i <? i) with false by (symmetry; apply Z.ltb_ge; lia).
    replace (i <? i + 1) with true by (symmetry; apply Z.ltb_lt; lia).
    reflexivity.
  - destruct (Z.ltb_spec j i), (Z.ltb_spec j (i + 1));
      rewrite ?orb_false_r; try reflexivity; lia.
Qed.

Lemma shifted_bit_in_range W r i :
  0 <= i < W -> in_range W (Z.b2z r * 2 ^ i).
Proof.
  intros Hi. assert (0 < 2 ^ i) by (apply Z.pow_pos_nonneg; lia).
  assert (2 ^ i < 2 ^ W) by (apply Z.pow_lt_mono_r; lia).
  destruct r; simpl Z.b2z; unfold in_range; lia.
Qed.

(** One iteration, on a type at least as wide as [int]. *)
Lemma lucal_step_spec W lhs rhs i E F res :
  int_digits <= W -> 0 <= i < W -> in_range W (value res) ->
  lucal_step W lhs rhs i (E, F, res)
  = Some (xorb (E && negb F) (Z.testbit (value lhs) i),
          xorb (negb E && F) (Z.testbit (value rhs) i),
          mk_gray_code
            (Z.lor (value res)
               (Z.b2z (xorb (xorb (E && F) (Z.testbit (value lhs) i))
                         (Z.testbit (value rhs) i)) * 2 ^ i))).
Proof.
  intros HW Hi Hres. unfold int_digits in HW. unfold lucal_step.
  rewrite !shr_defined by exact Hi.
  rewrite !cast_bool_land_1, <- !Z.bit0_odd, !Z.shiftr_spec by lia.
  rewrite !Z.add_0_l, bool_word, !cast_bool_word by lia.
  set (r := xorb (xorb (E && F) (Z.testbit (value lhs) i))
              (Z.testbit (value rhs) i)).
  unfold shl.
  replace (W <? int_digits) with false
    by (symmetry; apply Z.ltb_ge; unfold int_digits; lia).
  replace ((0 <=? i) && (i <? W)) with true.
  - pose proof (shifted_bit_in_range W r i Hi) as Hb.
    unfold or_assign_value. rewrite !(wrap_small W _ Hb).
    rewrite wrap_small by (apply lor_in_range; assumption).
    reflexivity.
  - symmetry. rewrite andb_true_iff.
    split; [apply Z.leb_le|apply Z.ltb_lt]; lia.
Qed.

Section LucalCarries.

(** The two summands, and the carries of their sum. *)
Variables a b c : Z.
Hypothesis Hsum : a + b = Z.lxor (Z.lxor a b) c.
Hypothesis Hcarry : c / 2 = Z.lor (Z.land a b) (Z.land c (Z.lor a b)).
Hypothesis Hc0 : Z.testbit c 0 = false.

Lemma carry_succ j :
  0 <= j ->
  Z.testbit c (j + 1)
  = (Z.testbit a j && Z.testbit b j)
    || (Z.testbit c j && (Z.testbit a j || Z.testbit b j)).
Proof.
  intros Hj. rewrite Z.add_1_r, <- Z.div2_bits, Hcarry by exact Hj.
  rewrite Z.lor_spec, !Z.land_spec, Z.lor_spec. reflexivity.
Qed.

Lemma sum_bit j :
  Z.testbit (a + b) j
  = xorb (xorb (Z.testbit a j) (Z.testbit b j)) (Z.testbit c j).
Proof. rewrite Hsum, !Z.lxor_spec. reflexivity. Qed.

Lemma xor_shift_1_bit x j :
  0 <= j ->
  Z.testbit (xor_shift 1 x) j = xorb (Z.testbit x j) (Z.testbit x (j + 1)).
Proof.
  intros Hj. unfold xor_shift.
  rewrite Z.lxor_spec, Z.shiftr_spec by exact Hj. reflexivity.
Qed.

(** The invariant of the loop is kept by an iteration: the two flags are
    the bits of the summands at the index, each combined with the carry
    into that index; the result bit is the bit of the Gray code of the
    sum. *)
Lemma lucal_invariant_step j :
  0 <= j ->
  let E := xorb (Z.testbit a j) (Z.testbit c j) in
  let F := xorb (Z.testbit b j) (Z.testbit c j) in
  xorb (E && negb F) (Z.testbit (xor_shift 1 a) j)
  = xorb (Z.testbit a (j + 1)) (Z.testbit c (j + 1))
  /\ xorb (negb E && F) (Z.testbit (xor_shift 1 b) j)
     = xorb (Z.testbit b (j + 1)) (Z.testbit c (j + 1))
  /\ xorb (xorb (E && F) (Z.testbit (xor_shift 1 a) j))
       (Z.testbit (xor_shift 1 b) j)
     = Z.testbit (xor_shift 1 (a + b)) j.
Proof.
  intros Hj E F. subst E F.
  rewrite !xor_shift_1_bit, !sum_bit, carry_succ by exact Hj.
  destruct (Z.testbit a j), (Z.testbit b j), (Z.testbit c j),
    (Z.testbit a (j + 1)), (Z.testbit b (j + 1)); repeat split.
Qed.

End LucalCarries.

Lemma lucal_loop_spec W lhs rhs a b c :
  int_digits <= W ->
  value lhs = xor_shift 1 a -> value rhs = xor_shift 1 b ->
  a + b = Z.lxor (Z.lxor a b) c ->
  c / 2 = Z.lor (Z.land a b) (Z.land c (Z.lor a b)) ->
  forall n fuel i,
    i = W - Z.of_nat n -> 0 <= i -> (n < fuel)%nat ->
    lucal_loop W lhs rhs fuel i
      (xorb (Z.testbit a i) (Z.testbit c i),
       xorb (Z.testbit b i) (Z.testbit c i),
       mk_gray_code (wrap i (xor_shift 1 (a + b))))
    = Some (mk_gray_code (wrap W (xor_shift 1 (a + b)))).
Proof.
  intros HW EA EB Hsum Hcarry.
  induction n as [|n IH]; intros fuel i Ei Hi Hfuel;
    (destruct fuel as [|fuel]; [lia|]); cbn [lucal_loop].
  - replace (i <? W) with false by (symmetry; apply Z.ltb_ge; lia).
    simpl snd. f_equal. f_equal. f_equal. lia.
  - replace (i <? W) with true by (symmetry; apply Z.ltb_lt; lia).
    assert (HiW : 0 <= i < W) by lia.
    assert (Hres : in_range W (wrap i (xor_shift 1 (a + b)))).
    { apply (in_range_mono i); [lia|]. apply wrap_in_range. exact Hi. }
    rewrite lucal_step_spec by assumption.
    simpl value. rewrite EA, EB.
    destruct (lucal_invariant_step a b c Hsum Hcarry i Hi) as [-> [-> ->]].
    rewrite wrap_extend by exact Hi.
    assert (Ew : wrap W (i + 1) = i + 1).
    { apply wrap_small. split; [lia|].
      apply Z.le_lt_trans with W; [lia|]. apply Z.pow_gt_lin_r; lia. }
    rewrite Ew. apply IH; lia.
Qed.

Lemma wrap_xor_shift_overflow W s :
  1 <= W -> 2 ^ W <= s < 2 ^ (W + 1) ->
  wrap W (xor_shift 1 s) = Z.lxor (to_gray W (wrap W s)) (2 ^ (W - 1)).
Proof.
  intros HW Hs.
  assert (HsW : Z.testbit s W = true).
  { assert (0 < 2 ^ W) by (apply Z.pow_pos_nonneg; lia).
    assert (El : Z.log2 s = W)
      by (apply Z.log2_unique; [lia|rewrite <- Z.add_1_r; lia]).
    rewrite <- El. apply Z.bit_log2. lia. }
  assert (Hw : in_range W (wrap W s)) by (apply wrap_in_range; lia).
  rewrite to_gray_xor_shift by exact Hw.
  apply Z.bits_inj'. intros i Hi.
  rewrite testbit_wrap, Z.lxor_spec, !xor_shift_1_bit by lia.
  rewrite !testbit_wrap, Z.pow2_bits_eqb by lia.
  destruct (Z.ltb_spec i W) as [Hlt|Hge].
  - destruct (Z.eqb_spec (W - 1) i) as [E|Hne].
    + replace (i + 1) with W by lia. rewrite HsW.
      replace (W <? W) with false by (symmetry; apply Z.ltb_ge; lia).
      simpl. destruct (Z.testbit s i); reflexivity.
    + replace (i + 1 <? W) with true by (symmetry; apply Z.ltb_lt; lia).
      simpl. rewrite xorb_false_r. reflexivity.
  - replace (i + 1 <? W) with false by (symmetry; apply Z.ltb_ge; lia).
    replace (W - 1 =? i) with false by (symmetry; apply Z.eqb_neq; lia).
    reflexivity.
Qed.

(** X23. Harold Lucal's addition, as the first [operator+] of the
    article writes it, on a power-of-two width at least that of [int]
    and a branch of [is_odd] that receives the whole representation:
    with more fuel than the width, the loop ends, and the result holds
    the low [W] bits of the Gray code of the sum of the two encoded
    values.  When the sum fits the width, this is the code of the sum;
    when it overflows, it is the code of the sum modulo [2^W] with its
    most significant bit flipped. *)
Theorem lucal_addition W tc fuel lhs rhs :
  power_of_two W -> int_digits <= W -> parity_supported tc W ->
  in_range W (value lhs) -> in_range W (value rhs) ->
  (Z.to_nat W < fuel)%nat ->
  let a := operator_value_type W lhs in
  let b := operator_value_type W rhs in
  operator_add W tc fuel lhs rhs
  = Some (mk_gray_code (wrap W (Z.lxor (a + b) (Z.shiftr (a + b) 1))))
  /\ (a + b < 2 ^ W -> operator_add W tc fuel lhs rhs = Some (gray W (a + b)))
  /\ (2 ^ W <= a + b ->
      operator_add W tc fuel lhs rhs
      = Some (mk_gray_code
                (Z.lxor (value (gray W ((a + b) mod 2 ^ W))) (2 ^ (W - 1))))).
Proof.
  intros HW Hint Htc Hl Hr Hfuel a b.
  pose proof (power_of_two_pos W HW) as Hpos.
  assert (Ha : in_range W a) by (apply from_gray_in_range; exact Hl).
  assert (Hb : in_range W b) by (apply from_gray_in_range; exact Hr).
  destruct (Z.add_carry_bits a b false) as [c [Hsum [Hcarry Hc0]]].
  simpl Z.b2z in Hsum. rewrite Z.add_0_r in Hsum.
  assert (EA : value lhs = xor_shift 1 a).
  { unfold a. rewrite operator_value_type_from_gray.
    rewrite <- (to_gray_xor_shift W) by (apply from_gray_in_range; exact Hl).
    symmetry. apply to_gray_from_gray; assumption. }
  assert (EB : value rhs = xor_shift 1 b).
  { unfold b. rewrite operator_value_type_from_gray.
    rewrite <- (to_gray_xor_shift W) by (apply from_gray_in_range; exact Hr).
    symmetry. apply to_gray_from_gray; assumption. }
  assert (Eadd : operator_add W tc fuel lhs rhs
                 = Some (mk_gray_code (wrap W (xor_shift 1 (a + b))))).
  { unfold operator_add.
    replace (W <? int_digits) with false by (symmetry; apply Z.ltb_ge; lia).
    rewrite !is_odd_value by assumption. fold a b.
    rewrite <- !Z.bit0_odd.
    rewrite <- (xorb_false_r (Z.testbit a 0)), <- (xorb_false_r (Z.testbit b 0)).
    rewrite <- Hc0.
    replace gray_code_default
      with (mk_gray_code (wrap 0 (xor_shift 1 (a + b))))
      by (unfold gray_code_default, wrap; rewrite Z.pow_0_r, Z.mod_1_r;
          reflexivity).
    apply (lucal_loop_spec W lhs rhs a b c Hint EA EB Hsum Hcarry
             (Z.to_nat W)); lia. }
  split; [exact Eadd|]. split.
  - intros Hfit. rewrite Eadd.
    assert (Hs : in_range W (a + b)) by (unfold in_range in *; lia).
    rewrite <- mk_to_gray, to_gray_xor_shift by exact Hs.
    rewrite wrap_small by (apply xor_shift_in_range; [lia|exact Hs]).
    reflexivity.
  - intros Hover. rewrite Eadd. f_equal. f_equal.
    rewrite gray_to_gray. fold (wrap W (a + b)).
    apply wrap_xor_shift_overflow; [lia|].
    split; [exact Hover|].
    rewrite Z.pow_add_r by lia. unfold in_range in *. lia.
Qed.

Lemma lucal_addition_witness :
  let a := operator_value_type 32 (gray 32 4000000000) in
  let b := operator_value_type 32 (gray 32 1000000000) in
  operator_add 32 gnuc_or_clang 40 (gray 32 4000000000) (gray 32 1000000000)
  = Some (mk_gray_code (wrap 32 (Z.lxor (a + b) (Z.shiftr (a + b) 1))))
  /\ (a + b < 2 ^ 32 ->
      operator_add 32 gnuc_or_clang 40 (gray 32 4000000000)
        (gray 32 1000000000) = Some (gray 32 (a + b)))
  /\ (2 ^ 32 <= a + b ->
      operator_add 32 gnuc_or_clang 40 (gray 32 4000000000)
        (gray 32 1000000000)
      = Some (mk_gray_code
                (Z.lxor (value (gray 32 ((a + b) mod 2 ^ 32))) (2 ^ (32 - 1))))).
Proof.
  apply (lucal_addition 32 gnuc_or_clang 40
           (gray 32 4000000000) (gray 32 1000000000)).
  - exact power_of_two_32.
  - unfold int_digits. lia.
  - simpl. unfold int_digits. lia.
  - apply in_range_dec_true. reflexivity.
  - apply in_range_dec_true. reflexivity.
  - simpl. lia.
Defined.

(** ** Assignment and mixed operands *)

(** X24. Assignment from a plain value of a power-of-two width replaces
    the state: whatever the object held, it becomes the code of that
    value, compares equal to the value in both operand orders, and
    converts back to it. *)
Theorem assignment_replaces W g n :
  power_of_two W -> in_range W n ->
  assign_value W g n = gray W n
  /\ operator_eq (assign_value W g n) (gray W n) = true
  /\ operator_eq_gray_value (assign_value W g n) n = true
  /\ operator_eq_value_gray n (assign_value W g n) = true
  /\ operator_value_type W (assign_value W g n) = n.
Proof.
  intros HW Hn.
  assert (E : assign_value W g n = gray W n) by reflexivity.
  rewrite E. unfold operator_eq, operator_eq_gray_value, operator_eq_value_gray.
  rewrite operator_value_type_from_gray, gray_to_gray.
  fold (xor_shift 1 n). rewrite <- (to_gray_xor_shift W n Hn).
  rewrite !Z.eqb_refl.
  split; [reflexivity|]. split; [reflexivity|]. split; [reflexivity|].
  split; [reflexivity|]. apply from_gray_to_gray; assumption.
Qed.

Lemma assignment_replaces_witness :
  assign_value 32 (gray 32 58) 73 = gray 32 73
  /\ operator_eq (assign_value 32 (gray 32 58) 73) (gray 32 73) = true
  /\ operator_eq_gray_value (assign_value 32 (gray 32 58) 73) 73 = true
  /\ operator_eq_value_gray 73 (assign_value 32 (gray 32 58) 73) = true
  /\ operator_value_type 32 (assign_value 32 (gray 32 58) 73) = 73.
Proof.
  apply (assignment_replaces 32 (gray 32 58) 73).
  - exact power_of_two_32.
  - apply in_range_dec_true. reflexivity.
Defined.

(** X25. Bitwise operators with a [bool] operand, on a code of at least
    one bit: the two operand orders agree; [false] is neutral for [|]
    and [^] and gives the code of 0 with [&]; [true] keeps bit 0 alone
    with [&] and sets it with [|]. *)
Theorem bool_operands W g b :
  1 <= W -> in_range W (value g) ->
  operator_bool_and W b g = operator_and_bool W g b
  /\ operator_bool_or W b g = operator_or_bool W g b
  /\ operator_bool_xor W b g = operator_xor_bool W g b
  /\ operator_or_bool W g false = g
  /\ operator_xor_bool W g false = g
  /\ operator_and_bool W g false = gray W 0
  /\ value (operator_and_bool W g true) = Z.b2z (Z.testbit (value g) 0)
  /\ Z.testbit (value (operator_or_bool W g true)) 0 = true.
Proof.
  intros HW Hg.
  unfold operator_or_bool, operator_xor_bool, operator_and_bool,
    or_assign_bool, xor_assign_bool, and_assign_bool.
  simpl Z.b2z. rewrite Z.lor_0_r, Z.lxor_0_r, Z.land_0_r.
  rewrite !(wrap_small W (value g)) by exact Hg.
  rewrite !gray_code_eta.
  assert (H1 : in_range W 1) by (apply in_range_1; exact HW).
  rewrite (wrap_small W (Z.land (value g) 1))
    by (apply land_in_range; assumption).
  rewrite (wrap_small W (Z.lor (value g) 1))
    by (apply lor_in_range; assumption).
  cbn [value].
  split; [reflexivity|]. split; [reflexivity|]. split; [reflexivity|].
  split; [reflexivity|]. split; [reflexivity|]. split; [reflexivity|].
  split.
  - rewrite <- Z.bit0_odd.
    apply Z.bits_inj'. intros i Hi. rewrite Z.land_spec.
    destruct (Z.eq_dec i 0) as [->|Hne].
    + rewrite Z.b2z_bit0. apply andb_true_r.
    + replace i with (Z.succ (Z.pred i)) by lia.
      rewrite (Z.pow2_bits_false 0), testbit_b2z_succ by lia.
      apply andb_false_r.
  - rewrite Z.lor_spec. apply orb_true_r.
Qed.

Lemma bool_operands_witness :
  operator_bool_and 8 true (gray 8 6) = operator_and_bool 8 (gray 8 6) true
  /\ operator_bool_or 8 true (gray 8 6) = operator_or_bool 8 (gray 8 6) true
  /\ operator_bool_xor 8 true (gray 8 6) = operator_xor_bool 8 (gray 8 6) true
  /\ operator_or_bool 8 (gray 8 6) false = gray 8 6
  /\ operator_xor_bool 8 (gray 8 6) false = gray 8 6
  /\ operator_and_bool 8 (gray 8 6) false = gray 8 0
  /\ value (operator_and_bool 8 (gray 8 6) true)
     = Z.b2z (Z.testbit (value (gray 8 6)) 0)
  /\ Z.testbit (value (operator_or_bool 8 (gray 8 6) true)) 0 = true.
Proof.
  apply (bool_operands 8 (gray 8 6) true).
  - lia.
  - apply in_range_dec_true. reflexivity.
Defined.

(** X26. A plain value combined in place with a Gray code ([n ^= g],
    [n &= g], [n |= g]) is combined with the representation, not with
    the encoded value: the result stays a [W]-bit value, [n ^= g] twice
    restores [n], and [n ^= gray(n)] leaves [n >> 1]. *)
Theorem plain_compound_assignment W n g :
  in_range W n -> in_range W (value g) ->
  value_and_assign W n g = Z.land n (value g)
  /\ value_or_assign W n g = Z.lor n (value g)
  /\ value_xor_assign W n g = Z.lxor n (value g)
  /\ in_range W (value_xor_assign W n g)
  /\ value_xor_assign W (value_xor_assign W n g) g = n
  /\ value_xor_assign W n (gray W n) = Z.shiftr n 1.
Proof.
  intros Hn Hg. unfold value_and_assign, value_or_assign, value_xor_assign.
  pose proof (lxor_in_range W n (value g) Hn Hg) as Hx.
  rewrite (wrap_small W (Z.land n (value g)))
    by (apply land_in_range; assumption).
  rewrite (wrap_small W (Z.lor n (value g)))
    by (apply lor_in_range; assumption).
  rewrite !(wrap_small W (Z.lxor n (value g)) Hx).
  split; [reflexivity|]. split; [reflexivity|]. split; [reflexivity|].
  split; [exact Hx|]. split.
  - rewrite Z.lxor_assoc, Z.lxor_nilpotent, Z.lxor_0_r.
    apply wrap_small. exact Hn.
  - rewrite gray_to_gray, to_gray_xor_shift by exact Hn.
    unfold xor_shift. rewrite lxor_cancel.
    apply wrap_small. apply shiftr_in_range; [lia|exact Hn].
Qed.

Lemma plain_compound_assignment_witness :
  value_and_assign 32 13 (gray 32 5) = Z.land 13 (value (gray 32 5))
  /\ value_or_assign 32 13 (gray 32 5) = Z.lor 13 (value (gray 32 5))
  /\ value_xor_assign 32 13 (gray 32 5) = Z.lxor 13 (value (gray 32 5))
  /\ in_range 32 (value_xor_assign 32 13 (gray 32 5))
  /\ value_xor_assign 32 (value_xor_assign 32 13 (gray 32 5)) (gray 32 5) = 13
  /\ value_xor_assign 32 13 (gray 32 13) = Z.shiftr 13 1.
Proof.
  apply (plain_compound_assignment 32 13 (gray 32 5)).
  - apply in_range_dec_true. reflexivity.
  - apply in_range_dec_true. reflexivity.
Defined.

